(** * infipod: descriptors, schema reconciliation and the typed row accessor

    A shallow embedding of [infipod.schema], [infipod.util] and
    [infipod.engine].  Python objects that are compared by identity (classes,
    semantic type instances) carry an explicit identity number; dictionaries
    that are only looked up are [gmap]s, dictionaries that are iterated are
    insertion-ordered association lists; raised exceptions are the [Err]
    branch of [Result].  Coroutines are trees of awaits on the driver; the
    task group of [map_as_completed] is a transition system over its
    children, driven by the interleaving that the event loop chooses.  The
    order in which a set is iterated follows the hashes of the Python
    process: it is an input of the run, next to the server's catalog.
    [str] methods that follow the Unicode tables of the interpreter are
    parameters of the functions that call them.

    Not modelled: errors of the driver itself (the engine passes them
    through), a cancellation that reaches the task group from outside, and
    [logger.debug] output. *)

From Stdlib Require Import ZArith Lia Ascii.
From stdpp Require Import gmap strings list fin_maps.

Local Open Scope Z_scope.

(** ** Python values, exceptions and sequence indexing *)

Module Py.

(** The values a driver row can hold.  [PyNone] is SQL NULL. *)
Inductive pyobj :=
| PyNone
| PyInt (z : Z)
| PyStr (s : string)
| PyEnum (enum_type : nat) (member : string).

Definition is_none (v : pyobj) : bool :=
  match v with PyNone => true | _ => false end.

Inductive Result (E A : Type) :=
| Ok (a : A)
| Err (e : E).
Arguments Ok {E A} a.
Arguments Err {E A} e.

Definition bind {E A B} (r : Result E A) (k : A → Result E B) : Result E B :=
  match r with
  | Ok a => k a
  | Err e => Err e
  end.

(** Python's [str.join]. *)
Fixpoint join (sep : string) (parts : list string) : string :=
  match parts with
  | [] => ""
  | [p] => p
  | p :: rest => p +:+ sep +:+ join sep rest
  end.

End Py.
Export Py.

#[global] Instance Result_ret {E} : MRet (Result E) := fun _ a => Ok a.
#[global] Instance Result_bind {E} : MBind (Result E) := fun _ _ k r => bind r k.

(** ** [infipod.types] *)

Module Types.

(** A [DatabaseType] instance.  Instances define no [__eq__], so Python
    compares them by identity: [type_id] is that identity.
    [with_converter] is [isinstance(_, DatabaseTypeWithConverter)]. *)
Record DatabaseType := {
  type_id : nat;
  with_converter : bool;
  postgresql_name : string;
}.

Definition Int4Type (id : nat) : DatabaseType :=
  {| type_id := id; with_converter := false; postgresql_name := "INT4" |}.

Definition TextType (id : nat) : DatabaseType :=
  {| type_id := id; with_converter := false; postgresql_name := "TEXT" |}.

Definition EnumType (id : nat) (enum_name : string) (postgresql_name : option string)
  : DatabaseType :=
  {| type_id := id; with_converter := true;
     postgresql_name := default enum_name postgresql_name |}.

(** What [create_converter(oid)] builds: a converter for the server type
    [conv_oid], decoding into the values of [conv_type]. *)
Record Converter := {
  conv_oid : Z;
  conv_type : DatabaseType;
}.

Definition create_converter (self : DatabaseType) (oid : Z) : Converter :=
  {| conv_oid := oid; conv_type := self |}.

#[global] Instance DatabaseType_eq_dec : EqDecision DatabaseType.
Proof. solve_decision. Defined.

#[global] Instance DatabaseType_countable : Countable DatabaseType.
Proof.
  refine (inj_countable'
    (fun t => (type_id t, with_converter t, postgresql_name t))
    (fun p => {| type_id := p.1.1; with_converter := p.1.2; postgresql_name := p.2 |}) _).
  by intros [].
Defined.

End Types.
Export Types.

(** ** [infipod.schema] *)

Module Schema.

(** A Python class object, as [__set_name__] sees its [owner] argument:
    an identity and whether [issubclass(owner, TableSchema)] holds. *)
Record pyclass := {
  class_id : nat;
  is_table_schema : bool;
}.

(** [Column] is a frozen attrs class: equality and hash are by the fields
    [(type, owner, name)].  [owner] is declared with [init=False] and no
    default, so the slot is unset ([None] here) until [__set_name__] runs;
    it holds the identity of the owning class. *)
Record Column := {
  type : DatabaseType;
  owner : option nat;
  name : string;
}.

#[global] Instance Column_eq_dec : EqDecision Column.
Proof. solve_decision. Defined.

#[global] Instance Column_countable : Countable Column.
Proof.
  refine (inj_countable'
    (fun c => (type c, owner c, name c))
    (fun p => {| type := p.1.1; owner := p.1.2; name := p.2 |}) _).
  by intros [].
Defined.

Inductive keyarg :=
| KMsg (msg : string)      (* KeyError raised with a message *)
| KType (cls : nat)        (* KeyError(table_type) from the schema dict *)
| KColumn (c : Column).    (* KeyError(column) from a column_mapping dict *)

#[warnings="-register-all"]
Inductive exn :=
| KeyError (arg : keyarg)
| IndexError
| AttributeError (attr : string)
| TypeError (msg : string)
| SchemaLoadFailedError (msg : string)
| ExceptionGroup (excs : list exn).

(** [Column(type, name=...)]. *)
Definition new_Column (ty : DatabaseType) (nm : string) : Column :=
  {| type := ty; owner := None; name := nm |}.

(** Reading [column.owner]: an unset slot raises [AttributeError]. *)
Definition get_owner (self : Column) : Result exn nat :=
  match owner self with
  | Some o => Ok o
  | None => Err (AttributeError "owner")
  end.

(** [Column.__set_name__]; returns [self] after the two
    [object.__setattr__] calls. *)
Definition __set_name__ (self : Column) (owner_cls : pyclass) (attr_name : string)
  : Result exn Column :=
  if negb (is_table_schema owner_cls) then
    Err (TypeError "Columns can't be used on non-TableSchema classes")
  else
    let self := {| type := type self; owner := Some (class_id owner_cls);
                   name := name self |} in
    Ok (if decide (name self = "") then
          {| type := type self; owner := owner self; name := attr_name |}
        else self).

(** A [TableSchema] subclass (a [type[TableSchema]] value): its identity,
    [table_name], and [all_columns] in insertion order.  Every column in
    [all_columns] has been through [__set_name__]. *)
Record TableClass := {
  cls : nat;
  table_name : string;
  all_columns : list (string * Column);
}.

(** [dict.get] on an insertion-ordered dictionary. *)
Fixpoint dict_get {V} (d : list (string * V)) (k : string) : option V :=
  match d with
  | [] => None
  | (k', v) :: rest => if decide (k' = k) then Some v else dict_get rest k
  end.

(** [dict[k] = v] on an insertion-ordered dictionary: an existing key keeps
    its position. *)
Fixpoint dict_set {V} (d : list (string * V)) (k : string) (v : V) : list (string * V) :=
  match d with
  | [] => [(k, v)]
  | (k', v') :: rest =>
      if decide (k' = k) then (k, v) :: rest else (k', v') :: dict_set rest k v
  end.

Definition dict_values {V} (d : list (string * V)) : list V := d.*2.

(** A [class ...(TableSchema)] statement whose body holds the columns
    [klass_body]: [type.__new__] calls [__set_name__] on each of them, then
    [_TableMeta.__init__] builds [all_columns], keyed by column name.
    [table_name] is the explicit name, or the snake-cased class name. *)
Definition new_table_class (id : nat) (table_name : string)
    (klass_body : list (string * Column)) : Result exn TableClass :=
  let owner_cls := {| class_id := id; is_table_schema := true |} in
  body ← mapM (fun kv => __set_name__ kv.2 owner_cls kv.1) klass_body;
  mret {| cls := id; table_name := table_name;
          all_columns := foldl (fun d c => dict_set d (name c) c) [] body |}.

(** A [TableSchema] instance: [type(self)], [self.oid] and
    [self.column_mapping]. *)
Record TableSchema := {
  schema_type : TableClass;
  oid : Z;
  column_mapping : gmap Column Z;
}.

(** [table(table_oid=oid)]. *)
Definition new_TableSchema (table : TableClass) (table_oid : Z) : TableSchema :=
  {| schema_type := table; oid := table_oid; column_mapping := ∅ |}.

End Schema.
Export Schema.

(** ** [infipod.engine]: the typed row accessor *)

Module Accessor.

(** Python's [seq[i]] for an [int] index: a negative index counts from the
    end, anything outside [-len, len) raises [IndexError]. *)
Definition list_getitem {A} (l : list A) (i : Z) : Result exn A :=
  let n := Z.of_nat (length l) in
  let j := if i <? 0 then i + n else i in
  if (j <? 0) || (n <=? j) then Err IndexError
  else match l !! Z.to_nat j with
       | Some x => Ok x
       | None => Err IndexError
       end.

(** [dict[k]]: a missing key raises [KeyError(k)]. *)
Definition dict_getitem `{Countable K} {V} (d : gmap K V) (k : K) (arg : keyarg)
  : Result exn V :=
  match d !! k with
  | Some v => Ok v
  | None => Err (KeyError arg)
  end.

(** The driver's per-value metadata: the selected column's name and, for a
    column that comes straight from a table, that table's object ID and the
    column's ordinal in it (both absent for computed columns). *)
Record ColumnDescription := {
  cd_name : string;
  table_oid : option Z;
  column_index : option Z;
}.

(** The driver's [DataRow]: [description.columns] and [data]. *)
Record DataRow := {
  columns : list ColumnDescription;
  data : list pyobj;
}.

Record IsopodPool := {
  _schemas : gmap nat TableSchema;
}.

Record EnhancedRow := {
  _engine : IsopodPool;
  _row : DataRow;
}.

Inductive key :=
| KInt (i : Z)
| KCol (c : Column).

(** [desc.table_oid == table_instance.oid and desc.column_index == column_idx] *)
Definition desc_matches (desc : ColumnDescription) (table_oid' column_idx : Z) : bool :=
  bool_decide (table_oid desc = Some table_oid')
  && bool_decide (column_index desc = Some column_idx).

Definition null_value_msg (c : Column) : string :=
  "Column " +:+ name c +:+ " has a NULL value".

Definition no_such_column_msg (c : Column) : string :=
  "No such column " +:+ name c +:+ " in this row".

(** The [for idx, desc in enumerate(...)] loop of [__getitem__], from
    position [idx] on, with the [raise] that follows it. *)
Fixpoint scan (self : EnhancedRow) (c : Column) (table_oid' column_idx : Z)
    (idx : nat) (descs : list ColumnDescription) : Result exn pyobj :=
  match descs with
  | [] => Err (KeyError (KMsg (no_such_column_msg c)))
  | desc :: rest =>
      if desc_matches desc table_oid' column_idx then
        v ← list_getitem (data (_row self)) (Z.of_nat idx);
        if is_none v then Err (KeyError (KMsg (null_value_msg c)))
        else list_getitem (data (_row self)) (Z.of_nat idx)
      else scan self c table_oid' column_idx (S idx) rest
  end.

(** [EnhancedRow.__getitem__] *)
Definition __getitem__ (self : EnhancedRow) (k : key) : Result exn pyobj :=
  match k with
  | KInt i => list_getitem (data (_row self)) i
  | KCol c =>
      table_type ← get_owner c;
      table_instance ← dict_getitem (_schemas (_engine self)) table_type (KType table_type);
      column_idx ← dict_getitem (column_mapping table_instance) c (KColumn c);
      scan self c (oid table_instance) column_idx 0 (columns (_row self))
  end.

(** [EnhancedRow.get]: [except KeyError: return None]. *)
Definition get (self : EnhancedRow) (k : key) : Result exn pyobj :=
  match __getitem__ self k with
  | Err (KeyError _) => Ok PyNone
  | r => r
  end.

(** A row given entry by entry: each value with its metadata. *)
Definition row_of_entries (es : list (pyobj * ColumnDescription)) : DataRow :=
  {| columns := es.*2; data := es.*1 |}.

End Accessor.
Export Accessor.

(** ** The driver and the coroutines that await it *)

Module Driver.

(** The three catalog queries the engine awaits, indexed by what the driver
    hands back.  [fetch_one] raises [MissingRowError] when the query has no
    row: that is the [None] answer. *)
Inductive query : Type → Type :=
| SelectTableOid (relname : string) : query (option Z)
    (* SELECT oid FROM pg_class WHERE relname = $1 AND relkind = 'r' *)
| SelectColumns (table_oid : Z) : query (list (string * Z))
    (* (attname, attnum) of pg_attribute for that table, ORDER BY attnum *)
| SelectTypeOid (typname : string) : query (option Z).
    (* SELECT oid FROM pg_type WHERE typname = $1 *)

(** What a run depends on besides the program's arguments: the server's
    catalog, as those three queries see it, and the order in which this
    Python process iterates a set of columns.  That order follows the
    hashes of the run, so it is any order of the set's elements; the one
    set the engine iterates is built in one way from the table and the
    catalog, so that within a run its order is a function of its
    elements. *)
Record World := {
  pg_class : string → option Z;
  pg_attribute : Z → list (string * Z);
  pg_type : string → option Z;
  set_order : gset Column → list Column;
  set_order_perm : ∀ s, set_order s ≡ₚ elements s;
}.

Definition answer (env : World) {X} (q : query X) : X :=
  match q with
  | SelectTableOid relname => pg_class env relname
  | SelectColumns table_oid => pg_attribute env table_oid
  | SelectTypeOid typname => pg_type env typname
  end.

(** A [logger.warning(event, **fields)] call.  ([logger.debug] calls are
    left out: they do not steer the control flow.) *)
Record warning := {
  event : string;
  fields : list (string * string);
}.

(** An [async def] body: it returns, raises, logs a warning, iterates a
    set of columns (and goes on with its elements in the order met), or
    awaits the driver and goes on with the answer.  Every [Await] is a
    checkpoint at which the coroutine is suspended; nothing else is. *)
Inductive Task (R : Type) : Type :=
| Return (r : R)
| Raise (e : exn)
| Warn (w : warning) (k : Task R)
| Iterate (s : gset Column) (k : list Column → Task R)
| Await {X : Type} (q : query X) (k : X → Task R).
Arguments Return {R} r.
Arguments Raise {R} e.
Arguments Warn {R} w k.
Arguments Iterate {R} s k.
Arguments Await {R X} q k.

Fixpoint task_bind {A B} (t : Task A) (f : A → Task B) : Task B :=
  match t with
  | Return a => f a
  | Raise e => Raise e
  | Warn w k => Warn w (task_bind k f)
  | Iterate s k => Iterate s (fun l => task_bind (k l) f)
  | Await q k => Await q (fun x => task_bind (k x) f)
  end.

#[global] Instance Task_ret : MRet Task := fun _ r => Return r.
#[global] Instance Task_bind : MBind Task := fun _ _ f t => task_bind t f.

(** Where a coroutine stands after it has run up to its next checkpoint. *)
Inductive progress (R : Type) :=
| Suspended (t : Task R)
| Returned (r : R)
| Raised (e : exn).
Arguments Suspended {R} t.
Arguments Returned {R} r.
Arguments Raised {R} e.

(** Run a coroutine up to its next [Await] (or to its end). *)
Fixpoint poll {R} (env : World) (t : Task R) : list warning * progress R :=
  match t with
  | Return r => ([], Returned r)
  | Raise e => ([], Raised e)
  | Warn w k => let '(ws, p) := poll env k in (w :: ws, p)
  | Iterate s k => poll env (k (set_order env s))
  | Await q k => ([], Suspended (Await q k))
  end.

(** Resume a suspended coroutine: the awaited answer arrives and the
    coroutine runs on to its next checkpoint. *)
Definition resume {R} (env : World) (t : Task R) : list warning * progress R :=
  match t with
  | Await q k => poll env (k (answer env q))
  | _ => poll env t
  end.

(** Run a coroutine alone, from start to end. *)
Fixpoint run {R} (env : World) (t : Task R) : list warning * Result exn R :=
  match t with
  | Return r => ([], Ok r)
  | Raise e => ([], Err e)
  | Warn w k => let '(ws, r) := run env k in (w :: ws, r)
  | Iterate s k => run env (k (set_order env s))
  | Await q k => run env (k (answer env q))
  end.

End Driver.
Export Driver.

(** ** [infipod.util] *)

Module Util.

Section TaskGroup.
Context {R : Type}.

(** A child task of the task group. *)
Inductive child :=
| Running (t : Task R)     (* started, suspended at a checkpoint *)
| Done (r : R)             (* [results.appendleft(await fn())] was reached *)
| Failed (e : exn)         (* the child raised [e] *)
| Cancelled.               (* the group's cancel scope stopped it *)

(** The task group of [map_as_completed] with the [results] deque (its left
    end is the head of the list).  [raised] collects what the children
    raised, in the order they raised it; the group's cancel scope is
    cancelled as soon as [raised] is not empty. *)
Record task_group := {
  children : list child;
  results : list R;
  raised : list exn;
  warnings : list warning;
}.

(** What the event loop does next: resume child [i] with the answer it
    awaits, or deliver the pending cancellation to child [i].  Once the
    scope is cancelled either may happen to a child: its answer may have
    arrived before the cancellation did. *)
Inductive tick :=
| Resume (i : nat)
| Cancel (i : nat).

Definition settle (g : task_group) (i : nat) (out : list warning * progress R) : task_group :=
  match out.2 with
  | Suspended t =>
      {| children := <[i := Running t]> (children g); results := results g;
         raised := raised g; warnings := warnings g ++ out.1 |}
  | Returned r =>
      {| children := <[i := Done r]> (children g); results := r :: results g;
         raised := raised g; warnings := warnings g ++ out.1 |}
  | Raised e =>
      {| children := <[i := Failed e]> (children g); results := results g;
         raised := raised g ++ [e]; warnings := warnings g ++ out.1 |}
  end.

Definition cancel (g : task_group) (i : nat) : task_group :=
  {| children := <[i := Cancelled]> (children g); results := results g;
     raised := raised g; warnings := warnings g |}.

Definition is_nil {A} (l : list A) : bool :=
  match l with [] => true | _ => false end.

(** One turn of the event loop.  A tick that names no running child does
    nothing; a cancellation is only delivered once a child has raised. *)
Definition step (env : World) (g : task_group) (tk : tick) : task_group :=
  match tk with
  | Resume i =>
      match children g !! i with
      | Some (Running t) => settle g i (resume env t)
      | _ => g
      end
  | Cancel i =>
      match children g !! i with
      | Some (Running t) => if is_nil (raised g) then g else cancel g i
      | _ => g
      end
  end.

Definition lift_result (out : list warning * Result exn R) : list warning * progress R :=
  (out.1, match out.2 with Ok r => Returned r | Err e => Raised e end).

(** Leaving the [async with] block waits for every child: a child that is
    still running is cancelled if the scope is cancelled, and otherwise
    runs to its end. *)
Definition join_child (env : World) (g : task_group) (i : nat) : task_group :=
  match children g !! i with
  | Some (Running t) =>
      if is_nil (raised g) then settle g i (lift_result (run env t)) else cancel g i
  | _ => g
  end.

Definition join_all (env : World) (g : task_group) : task_group :=
  foldl (join_child env) g (seq 0 (length (children g))).

(** [group.start_soon] for every input. *)
Definition start_all {I} (inputs : list I) (fn : I → Task R) : task_group :=
  {| children := (fun thing => Running (fn thing)) <$> inputs;
     results := []; raised := []; warnings := [] |}.

(** The task group from its start to the end of the [async with] block,
    under the interleaving [sched].  Every execution of the group is
    [run_group] of some [sched]: the ticks it took, in order. *)
Definition run_group {I} (env : World) (sched : list tick)
    (inputs : list I) (fn : I → Task R) : task_group :=
  join_all env (foldl (step env) (start_all inputs fn) sched).

(** [map_as_completed]: the task group re-raises what its children raised
    as one exception group; otherwise the deque is returned. *)
Definition map_as_completed {I} (env : World) (sched : list tick)
    (inputs : list I) (fn : I → Task R) : list warning * Result exn (list R) :=
  let g := run_group env sched inputs fn in
  (warnings g,
   if is_nil (raised g) then Ok (results g) else Err (ExceptionGroup (raised g))).

End TaskGroup.
Arguments child R : clear implicits.
Arguments task_group R : clear implicits.

(** *** [pascal_to_snake]

    A Python [str] is a sequence of code points, and what [str.isupper] and
    [str.lower] make of a code point is fixed by the Unicode tables of the
    interpreter, not by this repository: the lower-case form of a
    character can be several characters long, and it can hold an
    upper-case character itself.  The function is therefore written over
    any alphabet [char], with [isupper] and [lower] as it finds them and
    [underscore] for the character of ["_"]. *)
Section Str.
Context {char : Type} `{EqDecision char}.
Variable isupper : char → bool.
Variable lower : char → list char.
Variable underscore : char.

(** [word.lstrip("_")] *)
Fixpoint str_lstrip (word : list char) : list char :=
  match word with
  | [] => []
  | c :: rest => if decide (c = underscore) then str_lstrip rest else word
  end.

(** ["".join(["_" + c.lower() if c.isupper() else c for c in word])] *)
Fixpoint str_snake_chars (word : list char) : list char :=
  match word with
  | [] => []
  | c :: rest =>
      if isupper c then underscore :: lower c ++ str_snake_chars rest
      else c :: str_snake_chars rest
  end.

Definition str_pascal_to_snake (word : list char) : list char :=
  str_lstrip (str_snake_chars word).

End Str.

(** The same function on words of characters below U+0100, one byte each,
    as the class names of the test suite are.  There [str.isupper] holds
    of A-Z, À-Ö and Ø-Þ, and [str.lower] moves each of them 32 code points
    up and leaves every other character alone. *)
Definition isupper (c : ascii) : bool :=
  let n := N_of_ascii c in
  ((65 <=? n) && (n <=? 90) || (192 <=? n) && (n <=? 214) || (216 <=? n) && (n <=? 222))%N.

Definition lower (c : ascii) : ascii :=
  if isupper c then ascii_of_N (N_of_ascii c + 32) else c.

(** [word.lstrip(ch)] for a single character [ch]. *)
Fixpoint lstrip (ch : ascii) (word : string) : string :=
  match word with
  | EmptyString => EmptyString
  | String c rest => if decide (c = ch) then lstrip ch rest else word
  end.

(** ["".join(["_" + c.lower() if c.isupper() else c for c in word])] *)
Fixpoint snake_chars (word : string) : string :=
  match word with
  | EmptyString => EmptyString
  | String c rest =>
      if isupper c then String "_"%char (String (lower c) (snake_chars rest))
      else String c (snake_chars rest)
  end.

Definition pascal_to_snake (word : string) : string :=
  lstrip "_"%char (snake_chars word).

End Util.
Export Util.

(** ** [infipod.engine]: schema loading *)

Module Engine.

Definition unknown_table_msg (table : TableClass) : string :=
  "Unknown table " +:+ table_name table.

Definition missing_column_msg (table : TableClass) (column_name : string) : string :=
  "Missing column in schema: " +:+ table_name table +:+ "." +:+ column_name.

Definition unmapped_columns_msg (unmapped : list Column) : string :=
  "Unmapped columns: " +:+ join ", " (name <$> unmapped).

Definition unknown_type_msg (schema_type : DatabaseType) : string :=
  "Can't find OID for type " +:+ postgresql_name schema_type.

Definition set_column_mapping (schema : TableSchema) (column : Column) (ordinal : Z)
  : TableSchema :=
  {| schema_type := schema_type schema; oid := oid schema;
     column_mapping := <[column := ordinal]> (column_mapping schema) |}.

(** The [for row in column_rows] loop of [backfill_table_data]. *)
Fixpoint backfill_columns (strict : bool) (table : TableClass)
    (column_rows : list (string * Z)) (schema : TableSchema) : Task TableSchema :=
  match column_rows with
  | [] => Return schema
  | (column_name, attnum) :: rest =>
      match dict_get (all_columns table) column_name with
      | None =>
          if strict then
            Raise (SchemaLoadFailedError (missing_column_msg table column_name))
          else
            Warn {| event := "Missing column in schema";
                    fields := [("column", column_name); ("table", table_name table)] |}
                 (backfill_columns strict table rest schema)
      | Some column =>
          backfill_columns strict table rest (set_column_mapping schema column attnum)
      end
  end.

(** [set(table.all_columns.values()).difference(schema.column_mapping.keys())] *)
Definition unmapped_columns (table : TableClass) (schema : TableSchema) : gset Column :=
  list_to_set (dict_values (all_columns table)) ∖ dom (column_mapping schema).

(** The inner coroutine [backfill_table_data] of [create_table_schemas]. *)
Definition backfill_table_data (strict : bool) (table : TableClass)
  : Task (option TableSchema) :=
  Await (SelectTableOid (table_name table)) (fun oid_row =>
    match oid_row with
    | None =>
        if strict then Raise (SchemaLoadFailedError (unknown_table_msg table))
        else Warn {| event := "Missing table"; fields := [("table", table_name table)] |}
                  (Return None)
    | Some oid =>
        let schema := new_TableSchema table oid in
        Await (SelectColumns oid) (fun column_rows =>
          schema ← backfill_columns strict table column_rows schema;
          if strict then
            let diff := unmapped_columns table schema in
            if decide (diff = ∅) then Return (Some schema)
            else Iterate diff (fun unmapped =>
                   Raise (SchemaLoadFailedError (unmapped_columns_msg unmapped)))
          else Return (Some schema))
    end).

(** The [for column in schema.all_columns.values()] loop of the converter
    pass; [converters] is the dictionary keyed by type name. *)
Fixpoint load_column_converters (strict : bool) (schema : TableSchema)
    (cols : list Column) (converters : list (string * Converter))
  : Task (list (string * Converter)) :=
  match cols with
  | [] => Return converters
  | column :: rest =>
      let schema_type := type column in
      if negb (with_converter schema_type) then
        load_column_converters strict schema rest converters
      else
        Await (SelectTypeOid (postgresql_name schema_type)) (fun oid_row =>
          match oid_row with
          | None =>
              if strict then Raise (SchemaLoadFailedError (unknown_type_msg schema_type))
              else
                Warn {| event := "Unknown type";
                        fields := [("column", name column);
                                   ("type", postgresql_name schema_type);
                                   ("table", table_name (Schema.schema_type schema))] |}
                     (load_column_converters strict schema rest converters)
          | Some oid =>
              load_column_converters strict schema rest
                (dict_set converters (postgresql_name schema_type)
                          (create_converter schema_type oid))
          end)
  end.

(** The [for schema in schemas] loop around it. *)
Fixpoint load_converters (strict : bool) (schemas : list TableSchema)
    (converters : list (string * Converter)) : Task (list (string * Converter)) :=
  match schemas with
  | [] => Return converters
  | schema :: rest =>
      converters ← load_column_converters strict schema
                     (dict_values (all_columns (schema_type schema))) converters;
      load_converters strict rest converters
  end.

(** [{type(it): it for it in schemas}] *)
Definition schema_mapping (schemas : list TableSchema) : gmap nat TableSchema :=
  foldl (fun m it => <[cls (schema_type it) := it]> m) ∅ schemas.

(** [create_table_schemas]; [sched] is the interleaving of the per-table
    tasks that the event loop happens to choose. *)
Definition create_table_schemas (env : World) (sched : list tick)
    (schema_types : list TableClass) (strict : bool)
  : list warning * Result exn (gmap nat TableSchema * list Converter) :=
  let loaded := map_as_completed env sched schema_types (backfill_table_data strict) in
  match loaded.2 with
  | Err e => (loaded.1, Err e)
  | Ok schemas =>
      let schemas := omap id schemas in
      let converted := run env (load_converters strict schemas []) in
      (loaded.1 ++ converted.1,
       converters ← converted.2;
       Ok (schema_mapping schemas, dict_values converters))
  end.

(** [spawn_isopods_from_pool]: the engine over the loaded schemas (the
    converters go to the driver's pool). *)
Definition spawn_isopods_from_pool (env : World) (sched : list tick)
    (tables : list TableClass) (strict_schema_loading : bool)
  : Result exn IsopodPool :=
  loaded ← (create_table_schemas env sched tables strict_schema_loading).2;
  Ok {| _schemas := loaded.1 |}.

End Engine.
Export Engine.

(** ** [infipod.schema]: the class statement of a table *)

Module Declaration.

(** What a class body binds a name to: a [Column] object of its own (a
    column object shared by two attributes is outside this model), a string
    (as for [table_name = "..."]), or any other object. *)
Inductive pyattr :=
| AttrColumn (c : Column)
| AttrStr (s : string)
| AttrOther (id : nat).

(** The attributes that the class statement leaves on the new class itself:
    [table_name] (absent when neither the body nor the metaclass sets it)
    and [all_columns]. *)
Record class_attrs := {
  attr_table_name : option pyattr;
  attr_all_columns : list (string * Column);
}.

(** [type.__new__] calls [__set_name__(owner, key)] on every attribute of
    the body that has one: the columns. *)
Definition set_names (owner_cls : pyclass) (klass_body : list (string * pyattr))
  : Result exn (list (string * pyattr)) :=
  mapM (fun kv =>
          match kv.2 with
          | AttrColumn c => c ← __set_name__ c owner_cls kv.1; mret (kv.1, AttrColumn c)
          | _ => mret kv
          end) klass_body.

(** [{i.name: i for i in klass_body.values() if isinstance(i, Column)}] *)
Definition collect_columns (klass_body : list (string * pyattr)) : list (string * Column) :=
  foldl (fun d i => match i with
                    | AttrColumn i => dict_set d (name i) i
                    | _ => d
                    end) [] (dict_values klass_body).

(** [_TableMeta.__init__(mcs, name, bases, klass_body, table_name)] *)
Definition TableMeta_init (name : string) (klass_body : list (string * pyattr))
    (table_name : option string) : class_attrs :=
  {| attr_table_name :=
       if bool_decide (name ≠ "TableSchema")
          && bool_decide (dict_get klass_body "table_name" = None)
       then Some (AttrStr (match table_name with
                           | None => pascal_to_snake name
                           | Some table_name => table_name
                           end))
       else dict_get klass_body "table_name";
     attr_all_columns := collect_columns klass_body |}.

(** [class name(TableSchema, table_name=...): klass_body], for the class
    with identity [id]. *)
Definition class_statement (id : nat) (name : string)
    (klass_body : list (string * pyattr)) (table_name : option string)
  : Result exn class_attrs :=
  klass_body ← set_names {| class_id := id; is_table_schema := true |} klass_body;
  mret (TableMeta_init name klass_body table_name).

(** The class as schema loading reads it, when its [table_name] is a
    string. *)
Definition as_table_class (id : nat) (attrs : class_attrs) : option TableClass :=
  match attr_table_name attrs with
  | Some (AttrStr table_name) =>
      Some {| cls := id; table_name := table_name;
              all_columns := attr_all_columns attrs |}
  | _ => None
  end.

End Declaration.
Export Declaration.

(** ** Concrete programs and servers *)

Module Examples.

(** [class ExampleTable(TableSchema)] with [id = Column(Int4Type())] and
    [field = Column(TextType())], as the class body leaves them. *)
Definition example_table_cls : pyclass := {| class_id := 1%nat; is_table_schema := true |}.
Definition other_table_cls : pyclass := {| class_id := 2%nat; is_table_schema := true |}.
Definition plain_cls : pyclass := {| class_id := 3%nat; is_table_schema := false |}.

Definition col_id : Column :=
  {| type := Int4Type 10%nat; owner := Some 1%nat; name := "id" |}.
Definition col_field : Column :=
  {| type := TextType 11%nat; owner := Some 1%nat; name := "field" |}.

Definition ExampleTable : TableClass :=
  {| cls := 1%nat; table_name := "example_table";
     all_columns := [("id", col_id); ("field", col_field)] |}.

(** A second table whose columns carry the same names. *)
Definition other_id : Column :=
  {| type := Int4Type 12%nat; owner := Some 2%nat; name := "id" |}.
Definition OtherTable : TableClass :=
  {| cls := 2%nat; table_name := "other_table"; all_columns := [("id", other_id)] |}.

Definition example_schema : TableSchema :=
  {| schema_type := ExampleTable; oid := 16384;
     column_mapping := <[col_id := 1]> (<[col_field := 2]> ∅) |}.

Definition example_pool : IsopodPool :=
  {| _schemas := <[1%nat := example_schema]> ∅ |}.

Definition empty_pool : IsopodPool := {| _schemas := ∅ |}.

Definition desc (nm : string) (t c : Z) : ColumnDescription :=
  {| cd_name := nm; table_oid := Some t; column_index := Some c |}.

(** [SELECT id, field FROM example_table] *)
Definition row_id_field : EnhancedRow :=
  {| _engine := example_pool;
     _row := row_of_entries [(PyInt 7, desc "id" 16384 1);
                             (PyStr "05lifecut", desc "field" 16384 2)] |}.

(** [SELECT field, id FROM example_table] *)
Definition row_field_id : EnhancedRow :=
  {| _engine := example_pool;
     _row := row_of_entries [(PyStr "05lifecut", desc "field" 16384 2);
                             (PyInt 7, desc "id" 16384 1)] |}.

(** [SELECT id FROM example_table] *)
Definition row_id_only : EnhancedRow :=
  {| _engine := example_pool;
     _row := row_of_entries [(PyInt 7, desc "id" 16384 1)] |}.

(** A row whose only entries share the name, or one identifier, with
    [ExampleTable.id] but never both identifiers. *)
Definition row_lookalikes : EnhancedRow :=
  {| _engine := example_pool;
     _row := row_of_entries [(PyInt 1, desc "id" 20000 1);
                             (PyInt 2, desc "id" 16384 2);
                             (PyInt 3, {| cd_name := "id"; table_oid := None;
                                          column_index := None |})] |}.

(** [SELECT id, NULL::text AS field ...]: the [field] entry holds NULL. *)
Definition row_null_field : EnhancedRow :=
  {| _engine := example_pool;
     _row := row_of_entries [(PyInt 7, desc "id" 16384 1);
                             (PyNone, desc "field" 16384 2)] |}.

(** [SELECT a.id, b.id FROM example_table a LEFT JOIN example_table b ON false]:
    two entries with the pair of [ExampleTable.id], the second one NULL. *)
Definition row_self_join : EnhancedRow :=
  {| _engine := example_pool;
     _row := row_of_entries [(PyInt 7, desc "id" 16384 1);
                             (PyNone, desc "id" 16384 1)] |}.

(** [SELECT NULL]: a computed column holding NULL. *)
Definition row_select_null : EnhancedRow :=
  {| _engine := example_pool;
     _row := row_of_entries [(PyNone, {| cd_name := "?column?"; table_oid := None;
                                         column_index := None |})] |}.

(** The row of [row_id_field], fetched through a pool that has no schema
    for [ExampleTable] (a lenient miss). *)
Definition row_unreconciled : EnhancedRow :=
  {| _engine := empty_pool; _row := _row row_id_field |}.

(** A server that has [example_table (id, field)] and nothing else. *)
Definition server_with_table : World :=
  {| pg_class := fun relname =>
       if decide (relname = "example_table") then Some 16384 else None;
     pg_attribute := fun table_oid =>
       if decide (table_oid = 16384) then [("id", 1); ("field", 2)] else [];
     pg_type := fun _ => None;
     set_order := elements;
     set_order_perm := fun _ => reflexivity _ |}.

(** A server without any of the declared tables. *)
Definition empty_server : World :=
  {| pg_class := fun _ => None; pg_attribute := fun _ => []; pg_type := fun _ => None;
     set_order := elements;
     set_order_perm := fun _ => reflexivity _ |}.

(** [CREATE TABLE example_table (id INT4 ...)]: [field] is missing. *)
Definition server_without_field : World :=
  {| pg_class := fun relname =>
       if decide (relname = "example_table") then Some 16384 else None;
     pg_attribute := fun table_oid =>
       if decide (table_oid = 16384) then [("id", 1)] else [];
     pg_type := fun _ => None;
     set_order := elements;
     set_order_perm := fun _ => reflexivity _ |}.

(** [CREATE TABLE example_table ()]: the table is there, without any of
    the declared columns. *)
Definition server_without_columns : World :=
  {| pg_class := fun relname =>
       if decide (relname = "example_table") then Some 16384 else None;
     pg_attribute := fun _ => [];
     pg_type := fun _ => None;
     set_order := elements;
     set_order_perm := fun _ => reflexivity _ |}.

(** The same server, met by a Python process whose hashes make it iterate
    every set the other way round. *)
Definition other_process (env : World) : World :=
  {| pg_class := pg_class env;
     pg_attribute := pg_attribute env;
     pg_type := pg_type env;
     set_order := fun s => reverse (set_order env s);
     set_order_perm := fun s =>
       Permutation_trans (reverse_Permutation (set_order env s)) (set_order_perm env s) |}.

(** The table of the converter test: [field] is an enumeration column,
    [EnumType(ExampleEnum, postgresql_name="example_enum")]. *)
Definition example_enum : DatabaseType := EnumType 13 "ExampleEnum" (Some "example_enum").
Definition enum_field : Column :=
  {| type := example_enum; owner := Some 4%nat; name := "field" |}.
Definition EnumTable : TableClass :=
  {| cls := 4%nat; table_name := "enum_table";
     all_columns := [("id", {| type := Int4Type 14; owner := Some 4%nat; name := "id" |});
                     ("field", enum_field)] |}.

(** A server with [enum_table (id, field)]; [with_type] says whether the
    type [example_enum] exists. *)
Definition enum_server (with_type : bool) : World :=
  {| pg_class := fun relname =>
       if decide (relname = "enum_table") then Some 16390 else None;
     pg_attribute := fun table_oid =>
       if decide (table_oid = 16390) then [("id", 1); ("field", 2)] else [];
     pg_type := fun typname =>
       if with_type && bool_decide (typname = "example_enum") then Some 16388 else None;
     set_order := elements;
     set_order_perm := fun _ => reflexivity _ |}.

Definition unknown_table_error (table : TableClass) : exn :=
  SchemaLoadFailedError (unknown_table_msg table).

Definition missing_table_warning (table : TableClass) : warning :=
  {| event := "Missing table"; fields := [("table", table_name table)] |}.

(** [CREATE TABLE example_table (id INT4, field TEXT, missing TEXT)]: the
    server has a column that the program does not declare. *)
Definition server_with_extra_column : World :=
  {| pg_class := fun relname =>
       if decide (relname = "example_table") then Some 16384 else None;
     pg_attribute := fun table_oid =>
       if decide (table_oid = 16384) then [("id", 1); ("field", 2); ("missing", 3)]
       else [];
     pg_type := fun _ => None;
     set_order := elements;
     set_order_perm := fun _ => reflexivity _ |}.

End Examples.

(** ** Vocabulary of the statements *)

Module Spec.

(** The descriptor [c] resolves, through the schema map of the engine of
    [self], to the reconciled schema [ti] and the ordinal [ord]. *)
Definition resolves (self : EnhancedRow) (c : Column) (ti : TableSchema) (ord : Z) : Prop :=
  ∃ t, owner c = Some t
       ∧ _schemas (_engine self) !! t = Some ti
       ∧ column_mapping ti !! c = Some ord.

(** The metadata [desc] carries both identifiers of the descriptor. *)
Definition Matches (ti : TableSchema) (ord : Z) (desc : ColumnDescription) : Prop :=
  table_oid desc = Some (oid ti) ∧ column_index desc = Some ord.

#[global] Instance Matches_dec ti ord desc : Decision (Matches ti ord desc).
Proof. unfold Matches. apply _. Defined.

(** The (table object ID, ordinal) pair of a row entry. *)
Definition entry_pair (e : pyobj * ColumnDescription) : option Z * option Z :=
  (table_oid e.2, column_index e.2).

(** The two data-absence errors of a descriptor lookup. *)
Definition NullValue (c : Column) : exn := KeyError (KMsg (null_value_msg c)).
Definition ColumnNotInRow (c : Column) : exn := KeyError (KMsg (no_such_column_msg c)).

(** What the value at the found position [pos] turns into. *)
Definition found (self : EnhancedRow) (c : Column) (pos : nat) : Result exn pyobj :=
  match data (_row self) !! pos with
  | None => Err IndexError
  | Some v => if is_none v then Err (NullValue c) else Ok v
  end.

(** The row of entries [es], fetched through the engine [eng]. *)
Definition fetched (eng : IsopodPool) (es : list (pyobj * ColumnDescription)) : EnhancedRow :=
  {| _engine := eng; _row := row_of_entries es |}.

(** What a child task left behind. *)
Definition done_result {R} (c : child R) : option R :=
  match c with Done r => Some r | _ => None end.

Definition failure {R} (c : child R) : option exn :=
  match c with Failed e => Some e | _ => None end.

Definition is_running {R} (c : child R) : bool :=
  match c with Running _ => true | _ => false end.

(** Child [c] of the group [g] is a faithful continuation of the coroutine
    [t0] it was started from: it will end as [t0] run alone ends, it has
    logged what [t0] logs up to where it stands, and it is only cancelled
    if some child has raised. *)
Definition child_ok {R} (env : World) (g : task_group R) (t0 : Task R) (c : child R) : Prop :=
  match c with
  | Running t =>
      (run env t).2 = (run env t0).2
      ∧ ∀ w, w ∈ (run env t0).1 → w ∈ warnings g ∨ w ∈ (run env t).1
  | Done r => (run env t0).2 = Ok r ∧ ∀ w, w ∈ (run env t0).1 → w ∈ warnings g
  | Failed e => (run env t0).2 = Err e ∧ ∀ w, w ∈ (run env t0).1 → w ∈ warnings g
  | Cancelled => raised g ≠ []
  end.

(** The invariant of a task group started from the coroutines [tasks]. *)
Record group_inv {R} (env : World) (tasks : list (Task R)) (g : task_group R) : Prop := {
  inv_children : Forall2 (child_ok env g) tasks (children g);
  inv_results : results g ≡ₚ omap done_result (children g);
  inv_raised : raised g ≡ₚ omap failure (children g);
}.

(** What [run] makes of one more stretch of a coroutine. *)
Definition continue {R} (env : World) (out : list warning * progress R)
  : list warning * Result exn R :=
  match out.2 with
  | Suspended t => (out.1 ++ (run env t).1, (run env t).2)
  | Returned r => (out.1, Ok r)
  | Raised e => (out.1, Err e)
  end.

(** No character of [word] is upper-case. *)
Definition upper_free {char} (isupper : char → bool) (word : list char) : Prop :=
  Forall (fun c => isupper c = false) word.

(** The lower-case form of every upper-case character of [word] has no
    upper-case character. *)
Definition lowers_cleanly {char} (isupper : char → bool) (lower : char → list char)
    (word : list char) : Prop :=
  ∀ c, c ∈ word → isupper c = true → upper_free isupper (lower c).

(** No character of [s] is upper-case. *)
Fixpoint no_upper (s : string) : Prop :=
  match s with
  | EmptyString => True
  | String c rest => isupper c = false ∧ no_upper rest
  end.

(** A PascalCase word, hump by hump: each hump is an upper-case character
    followed by characters that are not upper-case. *)
Definition hump (h : ascii * string) : Prop :=
  isupper h.1 = true ∧ no_upper h.2.

Fixpoint pascal_word (humps : list (ascii * string)) : string :=
  match humps with
  | [] => EmptyString
  | h :: rest => String h.1 (h.2 +:+ pascal_word rest)
  end.

Definition snake_part (h : ascii * string) : string := String (lower h.1) h.2.

(** What [set_names] does to one attribute. *)
Definition bound_attr (id : nat) (kv kv' : string * pyattr) : Prop :=
  kv'.1 = kv.1
  ∧ match kv.2 with
    | AttrColumn c0 =>
        kv'.2 = AttrColumn {| type := type c0; owner := Some id;
                              name := if decide (name c0 = "") then kv.1 else name c0 |}
    | v => kv'.2 = v
    end.

(** The name a column of the class body ends up with: its explicit name,
    or the attribute it is assigned to. *)
Definition column_name (attr : string) (c0 : Column) : string :=
  if decide (name c0 = "") then attr else name c0.

(** The text [part] occurs in the text [s]. *)
Definition occurs_in (part s : string) : Prop :=
  ∃ before after, s = before +:+ part +:+ after.


(** The name [n] is the name of a declared column of [table]. *)
Definition declared (table : TableClass) (n : string) : Prop :=
  is_Some (dict_get (all_columns table) n).

#[global] Instance declared_dec table n : Decision (declared table n).
Proof. unfold declared. apply _. Defined.

(** The warning of a lenient load for a server column that is not declared. *)
Definition undeclared_warning (table : TableClass) (n : string) : warning :=
  {| event := "Missing column in schema";
     fields := [("column", n); ("table", table_name table)] |}.

(** The converter dictionary [cs] holds, under each type name, a converter
    that was made for a type of that name with the object ID the server has
    for it; [Q] is any property of the column types met so far. *)
Definition converters_ok (env : World) (Q : DatabaseType → Prop)
    (cs : list (string * Converter)) : Prop :=
  NoDup cs.*1
  ∧ ∀ k cv, dict_get cs k = Some cv →
      postgresql_name (conv_type cv) = k
      ∧ with_converter (conv_type cv) = true
      ∧ pg_type env k = Some (conv_oid cv)
      ∧ Q (conv_type cv).

(** The semantic type [ty] is the type of a declared column of one of the
    tables [schema_types]. *)
Definition declared_type (schema_types : list TableClass) (ty : DatabaseType) : Prop :=
  ∃ table c, table ∈ schema_types ∧ c ∈ dict_values (all_columns table) ∧ type c = ty.

End Spec.
Export Spec.

(** * Properties of the row accessor *)

Lemma list_getitem_nat {A} (l : list A) (i : nat) :
  list_getitem l (Z.of_nat i)
  = match l !! i with Some x => Ok x | None => Err IndexError end.
Proof.
  unfold list_getitem.
  destruct (Z.ltb_spec (Z.of_nat i) 0) as [?|_]; [lia|]. cbn [orb].
  destruct (Z.ltb_spec (Z.of_nat i) 0) as [?|_]; [lia|]. cbn [orb].
  destruct (Z.leb_spec (Z.of_nat (length l)) (Z.of_nat i)).
  - rewrite lookup_ge_None_2 by lia. done.
  - rewrite Nat2Z.id. done.
Qed.

Lemma desc_matches_spec desc ti ord :
  desc_matches desc (oid ti) ord = true ↔ Matches ti ord desc.
Proof.
  unfold desc_matches, Matches.
  rewrite andb_true_iff, !bool_decide_eq_true. done.
Qed.

Lemma scan_list_find self c ti ord descs idx :
  scan self c (oid ti) ord idx descs
  = match list_find (Matches ti ord) descs with
    | None => Err (ColumnNotInRow c)
    | Some (j, _) => found self c (idx + j)
    end.
Proof.
  revert idx. induction descs as [|d descs IH]; intros idx; [done|].
  cbn [scan list_find].
  destruct (desc_matches d (oid ti) ord) eqn:Hm.
  - apply desc_matches_spec in Hm. rewrite decide_True by done.
    rewrite Nat.add_0_r, list_getitem_nat. unfold found.
    destruct (data (_row self) !! idx) as [v|]; [|done].
    cbn. destruct (is_none v); done.
  - rewrite decide_False; last first.
    { intros Hd. apply desc_matches_spec in Hd. congruence. }
    rewrite IH. destruct (list_find (Matches ti ord) descs) as [[j y]|]; cbn; [|done].
    f_equal. lia.
Qed.

Lemma getitem_resolved self c ti ord :
  resolves self c ti ord →
  __getitem__ self (KCol c)
  = match list_find (Matches ti ord) (columns (_row self)) with
    | None => Err (ColumnNotInRow c)
    | Some (j, _) => found self c j
    end.
Proof.
  intros (t & Ho & Hs & Hc). unfold __getitem__, get_owner, dict_getitem.
  rewrite Ho. cbn. rewrite Hs. cbn. rewrite Hc. cbn.
  apply scan_list_find.
Qed.

Lemma getitem_unresolved self c :
  (∀ ti ord, ¬ resolves self c ti ord) →
  __getitem__ self (KCol c) = Err (AttributeError "owner")
  ∨ (∃ t, owner c = Some t ∧ __getitem__ self (KCol c) = Err (KeyError (KType t)))
  ∨ __getitem__ self (KCol c) = Err (KeyError (KColumn c)).
Proof.
  intros Hn. unfold __getitem__, get_owner, dict_getitem.
  destruct (owner c) as [t|] eqn:Ho; cbn; [|by left].
  destruct (_schemas (_engine self) !! t) as [ti|] eqn:Hs; cbn; [|right; left; eauto].
  destruct (column_mapping ti !! c) as [ord|] eqn:Hc; cbn; [|by right; right].
  destruct (Hn ti ord). by exists t.
Qed.

Lemma list_getitem_cases {A} (l : list A) (i : Z) :
  let n := Z.of_nat (length l) in
  (0 ≤ i < n ∧ ∃ x, l !! Z.to_nat i = Some x ∧ list_getitem l i = Ok x)
  ∨ (- n ≤ i < 0 ∧ ∃ x, l !! Z.to_nat (n + i) = Some x ∧ list_getitem l i = Ok x)
  ∨ ((n ≤ i ∨ i < - n) ∧ list_getitem l i = Err IndexError).
Proof.
  intros n. unfold list_getitem. fold n.
  destruct (Z.ltb_spec i 0) as [Hneg|Hpos].
  - destruct (Z.ltb_spec (i + n) 0) as [?|Hlo]; cbn [orb].
    { right; right. split; [lia|done]. }
    destruct (Z.leb_spec n (i + n)) as [?|_]; [lia|].
    right; left. split; [lia|].
    destruct (lookup_lt_is_Some_2 l (Z.to_nat (i + n))) as [x Hx]; [lia|].
    exists x. rewrite Hx. split; [|done]. by rewrite Z.add_comm.
  - destruct (Z.ltb_spec i 0) as [?|_]; [lia|]. cbn [orb].
    destruct (Z.leb_spec n i) as [?|Hhi].
    { right; right. split; [lia|done]. }
    left. split; [lia|].
    destruct (lookup_lt_is_Some_2 l (Z.to_nat i)) as [x Hx]; [lia|].
    exists x. by rewrite Hx.
Qed.

Lemma list_getitem_no_KeyError {A} (l : list A) (i : Z) a :
  list_getitem l i ≠ Err (KeyError a).
Proof.
  destruct (list_getitem_cases l i) as [(_ & x & _ & ->)|[(_ & x & _ & ->)|(_ & ->)]]; done.
Qed.

Lemma get_int self i : get self (KInt i) = __getitem__ self (KInt i).
Proof.
  unfold get. destruct (__getitem__ self (KInt i)) as [v|e] eqn:E; [done|].
  destruct e; try done. cbn in E. by apply list_getitem_no_KeyError in E.
Qed.

Lemma get_cases self k :
  (∃ a, __getitem__ self k = Err (KeyError a) ∧ get self k = Ok PyNone)
  ∨ ((∀ a, __getitem__ self k ≠ Err (KeyError a)) ∧ get self k = __getitem__ self k).
Proof.
  unfold get. destruct (__getitem__ self k) as [v|e]; [by right|].
  destruct e; first [by left; eauto | by right].
Qed.

Lemma found_not_KType self c pos t : found self c pos ≠ Err (KeyError (KType t)).
Proof.
  unfold found, NullValue. destruct (data (_row self) !! pos) as [v|]; [|done].
  destruct (is_none v); done.
Qed.

Lemma NoDup_fmap_elem_inj {A B} (f : A → B) (l : list A) x y :
  NoDup (f <$> l) → x ∈ l → y ∈ l → f x = f y → x = y.
Proof.
  induction l as [|a l IH]; intros Hnd Hx Hy Hf; [by apply elem_of_nil in Hx|].
  rewrite fmap_cons in Hnd. apply NoDup_cons in Hnd as [Ha Hnd].
  apply elem_of_cons in Hx as [->|Hx]; apply elem_of_cons in Hy as [->|Hy]; auto.
  - destruct Ha. rewrite Hf. by apply list_elem_of_fmap_2.
  - destruct Ha. rewrite <- Hf. by apply list_elem_of_fmap_2.
Qed.

Lemma list_find_unique_perm {A} (P : A → Prop) `{!∀ x, Decision (P x)} (l1 l2 : list A) :
  l1 ≡ₚ l2 →
  (∀ x y, x ∈ l1 → y ∈ l1 → P x → P y → x = y) →
  snd <$> list_find P l1 = snd <$> list_find P l2.
Proof.
  intros Hp Huniq.
  destruct (list_find P l1) as [[i x]|] eqn:E1.
  - apply list_find_Some in E1 as (Hi & Hx & _).
    assert (x ∈ l2) as Hin2 by (rewrite <- Hp; by eapply list_elem_of_lookup_2).
    destruct (list_find P l2) as [[j y]|] eqn:E2.
    + apply list_find_Some in E2 as (Hj & Hy & _). cbn. f_equal.
      apply Huniq; try done; [by eapply list_elem_of_lookup_2|].
      rewrite Hp. by eapply list_elem_of_lookup_2.
    + apply list_find_None in E2. rewrite Forall_forall in E2. by destruct (E2 x Hin2).
  - apply list_find_None in E1.
    destruct (list_find P l2) as [[j y]|] eqn:E2; [|done].
    apply list_find_Some in E2 as (Hj & Hy & _).
    rewrite Forall_forall in E1. destruct (E1 y); [|done].
    rewrite Hp. by eapply list_elem_of_lookup_2.
Qed.

(** The outcome of a descriptor lookup whose scan stops at entry [e]. *)
Lemma getitem_fetched eng es c ti ord :
  resolves (fetched eng es) c ti ord →
  __getitem__ (fetched eng es) (KCol c)
  = match snd <$> list_find (Matches ti ord ∘ snd) es with
    | None => Err (ColumnNotInRow c)
    | Some e => if is_none e.1 then Err (NullValue c) else Ok e.1
    end.
Proof.
  intros Hr. rewrite (getitem_resolved _ _ _ _ Hr). cbn [fetched _row row_of_entries columns].
  rewrite list_find_fmap.
  destruct (list_find (Matches ti ord ∘ snd) es) as [[j e]|] eqn:E; cbn; [|done].
  apply list_find_Some in E as (Hj & _ & _).
  unfold found. cbn [fetched _row row_of_entries data].
  rewrite list_lookup_fmap, Hj. done.
Qed.

Lemma getitem_no_match self c ti ord :
  resolves self c ti ord →
  (∀ desc, desc ∈ columns (_row self) → ¬ Matches ti ord desc) →
  __getitem__ self (KCol c) = Err (ColumnNotInRow c).
Proof.
  intros Hr Hnone. rewrite (getitem_resolved _ _ _ _ Hr).
  destruct (list_find (Matches ti ord) (columns (_row self))) as [[j d]|] eqn:E; [|done].
  apply list_find_Some in E as (Hj & Hm & _).
  destruct (Hnone d); [by eapply list_elem_of_lookup_2|done].
Qed.

(** C4.  A descriptor lookup returns a value only from a row entry whose
    metadata carries both the object ID of the descriptor's reconciled
    table and the descriptor's ordinal; when no entry carries both (whatever
    the entries' names, and even if one identifier agrees), the lookup
    returns no value but signals [ColumnNotInRow]. *)
Theorem getitem_column_needs_oid_and_ordinal (self : EnhancedRow) (c : Column) :
  (∀ v, __getitem__ self (KCol c) = Ok v →
     ∃ ti ord idx desc,
       resolves self c ti ord
       ∧ columns (_row self) !! idx = Some desc
       ∧ Matches ti ord desc
       ∧ data (_row self) !! idx = Some v)
  ∧ (∀ ti ord, resolves self c ti ord →
       (∀ desc, desc ∈ columns (_row self) → ¬ Matches ti ord desc) →
       __getitem__ self (KCol c) = Err (ColumnNotInRow c)
       ∧ ∀ v, __getitem__ self (KCol c) ≠ Ok v).
Proof.
  split.
  - intros v Hv.
    destruct (owner c) as [t|] eqn:Ho;
      [|by unfold __getitem__, get_owner in Hv; rewrite Ho in Hv].
    destruct (_schemas (_engine self) !! t) as [ti|] eqn:Hs;
      [|by unfold __getitem__, get_owner, dict_getitem in Hv; rewrite Ho in Hv; cbn in Hv;
           rewrite Hs in Hv].
    destruct (column_mapping ti !! c) as [ord|] eqn:Hc;
      [|by unfold __getitem__, get_owner, dict_getitem in Hv; rewrite Ho in Hv; cbn in Hv;
           rewrite Hs in Hv; cbn in Hv; rewrite Hc in Hv].
    assert (resolves self c ti ord) as Hr by (by exists t).
    rewrite (getitem_resolved _ _ _ _ Hr) in Hv.
    destruct (list_find (Matches ti ord) (columns (_row self))) as [[j d]|] eqn:E; [|done].
    apply list_find_Some in E as (Hj & Hm & _).
    exists ti, ord, j, d. repeat split; try done; try apply Hm.
    unfold found in Hv. destruct (data (_row self) !! j) as [w|]; [|done].
    destruct (is_none w); congruence.
  - intros ti ord Hr Hnone.
    rewrite (getitem_no_match _ _ _ _ Hr Hnone). split; [done|]. by intros v.
Qed.

(** C5 (as the code has it).  [get] returns [None] exactly when the strict
    lookup raises a [KeyError] or itself returns [None]; in every other case
    it behaves as the strict lookup.  The [KeyError]s are [NullValue],
    [ColumnNotInRow], and the dictionary's own [KeyError] for a table that
    is not in the schema map or a column that is not in its table's column
    mapping.  [IndexError] is never suppressed: an integer index outside
    the row's value count makes [get] raise it. *)
Theorem get_suppresses_exactly_KeyError (self : EnhancedRow) (k : key) :
  (get self k = Ok PyNone
   ↔ (∃ a, __getitem__ self k = Err (KeyError a)) ∨ __getitem__ self k = Ok PyNone)
  ∧ ((∀ a, __getitem__ self k ≠ Err (KeyError a)) → get self k = __getitem__ self k)
  ∧ (∀ a, __getitem__ self k = Err (KeyError a) →
       ∃ c, k = KCol c
            ∧ (KeyError a = NullValue c
               ∨ KeyError a = ColumnNotInRow c
               ∨ (∃ t, owner c = Some t ∧ _schemas (_engine self) !! t = None
                       ∧ a = KType t)
               ∨ (∃ t ti, owner c = Some t ∧ _schemas (_engine self) !! t = Some ti
                          ∧ column_mapping ti !! c = None ∧ a = KColumn c)))
  ∧ (∀ i, k = KInt i →
       (Z.of_nat (length (data (_row self))) ≤ i
        ∨ i < - Z.of_nat (length (data (_row self)))) →
       get self k = Err IndexError).
Proof.
  split; [split|split; [|split]].
  - intros Hg. destruct (get_cases self k) as [(a & Ha & _)|(_ & He)]; [eauto|].
    right. congruence.
  - intros [[a Ha]|Hn]; unfold get; [by rewrite Ha|by rewrite Hn].
  - intros Hn. destruct (get_cases self k) as [(a & Ha & _)|(_ & He)]; [|done].
    by destruct (Hn a).
  - intros a Ha. destruct k as [i|c].
    { cbn in Ha. by apply list_getitem_no_KeyError in Ha. }
    exists c. split; [done|].
    unfold __getitem__, get_owner, dict_getitem in Ha.
    destruct (owner c) as [t|] eqn:Ho; cbn in Ha; [|done].
    destruct (_schemas (_engine self) !! t) as [ti|] eqn:Hs; cbn in Ha; last first.
    { right; right; left. exists t. repeat split; congruence. }
    destruct (column_mapping ti !! c) as [ord|] eqn:Hc; cbn in Ha; last first.
    { right; right; right. exists t, ti. repeat split; congruence. }
    rewrite scan_list_find in Ha.
    destruct (list_find (Matches ti ord) (columns (_row self))) as [[j d]|];
      [|right; left; congruence].
    unfold found in Ha. cbn [Nat.add] in Ha.
    destruct (data (_row self) !! j) as [w|]; [|done].
    destruct (is_none w); [|done]. left. congruence.
  - intros i -> Hout. rewrite get_int. cbn.
    destruct (list_getitem_cases (data (_row self)) i)
      as [(? & _)|[(? & _)|(_ & ->)]]; [lia|lia|done].
Qed.

(** C6 (as the code has it).  For a descriptor that resolves to a (table
    object ID, ordinal) pair: if the first row entry carrying that pair
    holds NULL the lookup signals [NullValue]; if no entry carries the pair
    it signals [ColumnNotInRow]; and the two errors differ. *)
Theorem getitem_NullValue_or_ColumnNotInRow
    (self : EnhancedRow) (c : Column) (ti : TableSchema) (ord : Z) :
  resolves self c ti ord →
  (∀ idx desc,
     columns (_row self) !! idx = Some desc →
     Matches ti ord desc →
     (∀ j d, columns (_row self) !! j = Some d → (j < idx)%nat → ¬ Matches ti ord d) →
     data (_row self) !! idx = Some PyNone →
     __getitem__ self (KCol c) = Err (NullValue c))
  ∧ ((∀ desc, desc ∈ columns (_row self) → ¬ Matches ti ord desc) →
     __getitem__ self (KCol c) = Err (ColumnNotInRow c))
  ∧ NullValue c ≠ ColumnNotInRow c.
Proof.
  intros Hr. split; [|split].
  - intros idx desc Hidx Hm Hfirst Hnull.
    rewrite (getitem_resolved _ _ _ _ Hr).
    assert (list_find (Matches ti ord) (columns (_row self)) = Some (idx, desc)) as ->.
    { apply list_find_Some. eauto. }
    unfold found. by rewrite Hnull.
  - intros Hnone.
    by apply (getitem_no_match self c ti ord).
  - unfold NullValue, ColumnNotInRow, null_value_msg, no_such_column_msg. cbn.
    intros [=].
Qed.

(** C7 (as the code has it).  A descriptor lookup whose owning table is not
    in the schema map fails with the schema dictionary's [KeyError], which
    carries the table type: the same exception class as [NullValue] and
    [ColumnNotInRow], told apart from them by its argument only; [get]
    suppresses it like any [KeyError] and returns [None]. *)
Theorem getitem_unreconciled_table (self : EnhancedRow) (c : Column) (t : nat) :
  owner c = Some t →
  _schemas (_engine self) !! t = None →
  __getitem__ self (KCol c) = Err (KeyError (KType t))
  ∧ get self (KCol c) = Ok PyNone
  ∧ KeyError (KType t) ≠ NullValue c
  ∧ KeyError (KType t) ≠ ColumnNotInRow c.
Proof.
  intros Ho Hs.
  assert (__getitem__ self (KCol c) = Err (KeyError (KType t))) as Hg.
  { unfold __getitem__, get_owner, dict_getitem. rewrite Ho. cbn. by rewrite Hs. }
  repeat split; [done| |done|done].
  unfold get. by rewrite Hg.
Qed.

(** C8.  Two rows fetched through the same engine whose entries are
    permutations of one another, each (table object ID, ordinal) pair
    occurring at most once, give the same result for every descriptor
    lookup; and that result is the value of the entry that carries the
    descriptor's pair. *)
Theorem getitem_select_order_independent
    (eng : IsopodPool) (es1 es2 : list (pyobj * ColumnDescription)) (c : Column) :
  es1 ≡ₚ es2 →
  NoDup (entry_pair <$> es1) →
  __getitem__ (fetched eng es1) (KCol c) = __getitem__ (fetched eng es2) (KCol c)
  ∧ (∀ ti ord v desc,
       resolves (fetched eng es1) c ti ord →
       (v, desc) ∈ es1 → Matches ti ord desc → v ≠ PyNone →
       __getitem__ (fetched eng es1) (KCol c) = Ok v
       ∧ __getitem__ (fetched eng es2) (KCol c) = Ok v).
Proof.
  intros Hp Hnd.
  assert (∀ ti ord x y, x ∈ es1 → y ∈ es1 →
            (Matches ti ord ∘ snd) x → (Matches ti ord ∘ snd) y → x = y) as Huniq.
  { intros ti ord x y Hx Hy [Hx1 Hx2] [Hy1 Hy2].
    apply (NoDup_fmap_elem_inj entry_pair es1); try done.
    unfold entry_pair. congruence. }
  assert (∀ ti ord, resolves (fetched eng es1) c ti ord →
            __getitem__ (fetched eng es1) (KCol c) = __getitem__ (fetched eng es2) (KCol c)) as Heq.
  { intros ti ord Hr.
    rewrite (getitem_fetched eng es1 c ti ord Hr), (getitem_fetched eng es2 c ti ord Hr).
    by rewrite (list_find_unique_perm _ es1 es2 Hp (Huniq ti ord)). }
  split.
  - destruct (owner c) as [t|] eqn:Ho;
      [|by unfold __getitem__, get_owner; rewrite Ho].
    destruct (_schemas eng !! t) as [ti|] eqn:Hs;
      [|by unfold __getitem__, get_owner, dict_getitem; rewrite Ho; cbn; rewrite Hs].
    destruct (column_mapping ti !! c) as [ord|] eqn:Hc;
      [|by unfold __getitem__, get_owner, dict_getitem; rewrite Ho; cbn; rewrite Hs; cbn;
           rewrite Hc].
    apply (Heq ti ord). by exists t.
  - intros ti ord v desc Hr Hin Hm Hv.
    rewrite <- (Heq ti ord Hr).
    enough (__getitem__ (fetched eng es1) (KCol c) = Ok v) by done.
    rewrite (getitem_fetched eng es1 c ti ord Hr).
    destruct (list_find (Matches ti ord ∘ snd) es1) as [[j e]|] eqn:E.
    + apply list_find_Some in E as (Hj & He & _). cbn.
      assert (e = (v, desc)) as ->.
      { apply (Huniq ti ord); try done. by eapply list_elem_of_lookup_2. }
      cbn. by destruct v.
    + apply list_find_None in E. rewrite Forall_forall in E.
      by destruct (E _ Hin).
Qed.

(** C9 (as the code has it).  Binding a column to an owner that is not a
    [TableSchema] class raises [TypeError]; looking up a column that was
    never bound raises [AttributeError], also through [get]; binding to a
    [TableSchema] class succeeds whether or not the column is already
    bound, and makes that class the owner (the name is kept unless empty). *)
Theorem set_name_binds_owner (self : Column) (owner_cls : pyclass) (attr_name : string) :
  (is_table_schema owner_cls = false →
     __set_name__ self owner_cls attr_name
     = Err (TypeError "Columns can't be used on non-TableSchema classes"))
  ∧ (owner self = None →
     ∀ row, __getitem__ row (KCol self) = Err (AttributeError "owner")
            ∧ get row (KCol self) = Err (AttributeError "owner"))
  ∧ (is_table_schema owner_cls = true →
     ∃ bound, __set_name__ self owner_cls attr_name = Ok bound
              ∧ owner bound = Some (class_id owner_cls)
              ∧ type bound = type self
              ∧ name bound = (if decide (name self = "") then attr_name else name self)).
Proof.
  split; [|split].
  - intros Hno. unfold __set_name__. by rewrite Hno.
  - intros Hun row.
    assert (__getitem__ row (KCol self) = Err (AttributeError "owner")) as Hg.
    { unfold __getitem__, get_owner. by rewrite Hun. }
    split; [done|]. unfold get. by rewrite Hg.
  - intros Hyes. unfold __set_name__. rewrite Hyes. cbn.
    eexists. split; [done|]. by destruct (decide (name self = "")).
Qed.

(** C10.  On a row of [n] values, an integer index [i] with [-n <= i <= -1]
    makes both the strict lookup and [get] return the value at position
    [n + i]; both raise [IndexError] exactly when [i >= n] or [i < -n]. *)
Theorem getitem_int_negative_index (self : EnhancedRow) (i : Z) :
  let n := Z.of_nat (length (data (_row self))) in
  (- n ≤ i ≤ -1 →
     ∃ v, data (_row self) !! Z.to_nat (n + i) = Some v
          ∧ __getitem__ self (KInt i) = Ok v
          ∧ get self (KInt i) = Ok v)
  ∧ (__getitem__ self (KInt i) = Err IndexError ↔ n ≤ i ∨ i < - n)
  ∧ (get self (KInt i) = Err IndexError ↔ n ≤ i ∨ i < - n).
Proof.
  intros n. rewrite get_int. cbn [__getitem__].
  destruct (list_getitem_cases (data (_row self)) i)
    as [(Hr & x & Hx & Hg)|[(Hr & x & Hx & Hg)|(Hr & Hg)]]; fold n in Hr; rewrite Hg.
  - split; [lia|]. split; (split; [done|lia]).
  - split; [intros _; eauto|]. split; (split; [done|lia]).
  - split; [lia|]. split; done.
Qed.

(** ** The accessor on concrete rows *)

Import Examples.

Lemma example_resolves_id (r : DataRow) :
  resolves {| _engine := example_pool; _row := r |} col_id example_schema 1.
Proof. exists 1%nat. repeat split; reflexivity. Qed.

Lemma example_resolves_field (r : DataRow) :
  resolves {| _engine := example_pool; _row := r |} col_field example_schema 2.
Proof. exists 1%nat. repeat split; reflexivity. Qed.

(** C4 at [SELECT id, field]: the value of [id] comes from the entry with
    both identifiers; among look-alike entries nothing is returned. *)
Lemma getitem_column_needs_oid_and_ordinal_witness :
  (∃ ti ord idx desc,
     resolves row_id_field col_id ti ord
     ∧ columns (_row row_id_field) !! idx = Some desc
     ∧ Matches ti ord desc
     ∧ data (_row row_id_field) !! idx = Some (PyInt 7))
  ∧ __getitem__ row_lookalikes (KCol col_id) = Err (ColumnNotInRow col_id).
Proof.
  split.
  - apply (proj1 (getitem_column_needs_oid_and_ordinal row_id_field col_id) (PyInt 7)).
    reflexivity.
  - apply (proj2 (getitem_column_needs_oid_and_ordinal row_lookalikes col_id)
             example_schema 1 (example_resolves_id _)).
    intros d Hd [Ht Hc]. cbn in Hd.
    rewrite !elem_of_cons in Hd.
    destruct Hd as [->|[->|[->|Hd]]]; [discriminate..|].
    by apply elem_of_nil in Hd.
Defined.

(** C5 as stated fails: [get] also returns [None] where the strict lookup
    signals neither [NullValue] nor [ColumnNotInRow] — on a raw index whose
    value is NULL, and on a descriptor whose table is not in the schema
    map. *)
Lemma get_None_without_NullValue_or_ColumnNotInRow :
  get row_select_null (KInt 0) = Ok PyNone
  ∧ __getitem__ row_select_null (KInt 0) = Ok PyNone
  ∧ get row_unreconciled (KCol col_field) = Ok PyNone
  ∧ __getitem__ row_unreconciled (KCol col_field) = Err (KeyError (KType 1))
  ∧ KeyError (KType 1) ≠ NullValue col_field
  ∧ KeyError (KType 1) ≠ ColumnNotInRow col_field.
Proof. repeat split; done. Qed.

(** C6 as stated fails: in the self-join row the second entry carries the
    pair of [ExampleTable.id] and holds NULL, yet the lookup returns the
    value of the first entry. *)
Lemma getitem_returns_first_match_despite_NULL :
  resolves row_self_join col_id example_schema 1
  ∧ columns (_row row_self_join) !! 1%nat = Some (desc "id" 16384 1)
  ∧ Matches example_schema 1 (desc "id" 16384 1)
  ∧ data (_row row_self_join) !! 1%nat = Some PyNone
  ∧ __getitem__ row_self_join (KCol col_id) = Ok (PyInt 7).
Proof. split; [apply example_resolves_id|]. repeat split. Qed.

(** C6 at [SELECT id, NULL AS field] and at [SELECT id]. *)
Lemma getitem_NullValue_or_ColumnNotInRow_witness :
  __getitem__ row_null_field (KCol col_field) = Err (NullValue col_field)
  ∧ __getitem__ row_id_only (KCol col_field) = Err (ColumnNotInRow col_field)
  ∧ NullValue col_field ≠ ColumnNotInRow col_field.
Proof.
  split; [|split].
  - apply (proj1 (getitem_NullValue_or_ColumnNotInRow row_null_field col_field
                    example_schema 2 (example_resolves_field _))
             1%nat (desc "field" 16384 2)).
    + reflexivity.
    + split; reflexivity.
    + intros j d Hj Hlt [_ Hc]. destruct j as [|j]; [|lia].
      cbn in Hj. injection Hj as <-. discriminate.
    + reflexivity.
  - apply (proj1 (proj2 (getitem_NullValue_or_ColumnNotInRow row_id_only col_field
                    example_schema 2 (example_resolves_field _)))).
    intros d Hd [_ Hc]. cbn in Hd. rewrite elem_of_cons in Hd.
    destruct Hd as [->|Hd]; [discriminate|]. by apply elem_of_nil in Hd.
  - apply (proj2 (proj2 (getitem_NullValue_or_ColumnNotInRow row_id_only col_field
                    example_schema 2 (example_resolves_field _)))).
Defined.

(** C7 as stated fails: through a pool without a schema for
    [ExampleTable], [get] on its descriptor returns [None]. *)
Lemma get_absorbs_unreconciled_table :
  owner col_id = Some 1%nat
  ∧ _schemas (_engine row_unreconciled) !! 1%nat = None
  ∧ __getitem__ row_unreconciled (KCol col_id) = Err (KeyError (KType 1))
  ∧ get row_unreconciled (KCol col_id) = Ok PyNone.
Proof. repeat split. Qed.

(** C7 on that row. *)
Lemma getitem_unreconciled_table_witness :
  __getitem__ row_unreconciled (KCol col_id) = Err (KeyError (KType 1))
  ∧ get row_unreconciled (KCol col_id) = Ok PyNone
  ∧ KeyError (KType 1) ≠ NullValue col_id
  ∧ KeyError (KType 1) ≠ ColumnNotInRow col_id.
Proof.
  apply (getitem_unreconciled_table row_unreconciled col_id 1); reflexivity.
Defined.

(** C8 at [SELECT id, field] against [SELECT field, id]. *)
Lemma getitem_select_order_independent_witness :
  __getitem__ row_id_field (KCol col_field) = __getitem__ row_field_id (KCol col_field)
  ∧ __getitem__ row_id_field (KCol col_field) = Ok (PyStr "05lifecut")
  ∧ __getitem__ row_field_id (KCol col_field) = Ok (PyStr "05lifecut").
Proof.
  pose proof (getitem_select_order_independent example_pool
    [(PyInt 7, desc "id" 16384 1); (PyStr "05lifecut", desc "field" 16384 2)]
    [(PyStr "05lifecut", desc "field" 16384 2); (PyInt 7, desc "id" 16384 1)]
    col_field) as H.
  destruct H as [Heq Hval].
  - apply perm_swap.
  - cbn. apply NoDup_cons. split.
    + rewrite elem_of_cons. intros [[=]|Hin]. by apply elem_of_nil in Hin.
    + apply NoDup_cons. split; [apply not_elem_of_nil|apply NoDup_nil_2].
  - split; [exact Heq|].
    apply (Hval example_schema 2 (PyStr "05lifecut") (desc "field" 16384 2)).
    + apply example_resolves_field.
    + apply elem_of_cons. right. apply elem_of_cons. by left.
    + split; reflexivity.
    + discriminate.
Defined.

(** C9 as stated fails: a column bound to [ExampleTable] is bound again, to
    a second table class, without any error; the second class becomes its
    owner. *)
Lemma set_name_rebinds_without_error :
  __set_name__ (new_Column (Int4Type 10) "") example_table_cls "id" = Ok col_id
  ∧ owner col_id = Some (class_id example_table_cls)
  ∧ __set_name__ col_id other_table_cls "id"
    = Ok {| type := Int4Type 10; owner := Some (class_id other_table_cls); name := "id" |}.
Proof. repeat split. Qed.

(** * Properties of the task group *)

Section GroupFacts.
Context {R : Type} (env : World).
Implicit Types (t : Task R) (g : task_group R) (c : child R).

Lemma run_poll t : run env t = continue env (poll env t).
Proof.
  induction t as [r|e|w k IH|s k IH|X q k IH]; cbn; try done.
  - rewrite IH. unfold continue. destruct (poll env k) as [ws [t'|r|e]]; done.
  - unfold continue. cbn. by destruct (run env (k (answer env q))).
Qed.

Lemma run_resume t : run env t = continue env (resume env t).
Proof. destruct t; cbn [resume]; try apply run_poll. cbn [run]. apply run_poll. Qed.

Lemma run_lift_result t : run env t = continue env (lift_result (run env t)).
Proof.
  unfold continue, lift_result. destruct (run env t) as [ws [r|e]]; done.
Qed.

Lemma omap_insert_from_None {A B} (f : A → option B) (l : list A) i x y :
  l !! i = Some x → f x = None →
  omap f (<[i := y]> l) ≡ₚ option_list (f y) ++ omap f l.
Proof.
  revert i. induction l as [|a l IH]; intros [|i] Hi Hx; try done.
  - cbn in Hi. injection Hi as ->. cbn. rewrite Hx. by destruct (f y).
  - cbn in Hi. cbn. destruct (f a); rewrite (IH i Hi Hx); [|done].
    destruct (f y); cbn; [apply perm_swap|done].
Qed.

Lemma child_ok_mono g g' t0 c :
  (∀ w, w ∈ warnings g → w ∈ warnings g') →
  (raised g ≠ [] → raised g' ≠ []) →
  child_ok env g t0 c → child_ok env g' t0 c.
Proof.
  intros Hw Hr. destruct c; cbn; [| | |done]; intros [Ho Hws]; (split; [done|]);
    intros w Hin; destruct (Hws w Hin); auto.
Qed.

Lemma children_insert_ok tasks g g' i c' :
  Forall2 (child_ok env g) tasks (children g) →
  (∀ w, w ∈ warnings g → w ∈ warnings g') →
  (raised g ≠ [] → raised g' ≠ []) →
  (∀ t0, tasks !! i = Some t0 → child_ok env g' t0 c') →
  Forall2 (child_ok env g') tasks (<[i := c']> (children g)).
Proof.
  intros Hch Hw Hr Hnew.
  apply Forall2_same_length_lookup in Hch as [Hlen Hch].
  apply Forall2_same_length_lookup. split; [by rewrite length_insert|].
  intros j t0 c Ht0 Hc. destruct (decide (j = i)) as [->|Hne].
  - rewrite list_lookup_insert_eq in Hc.
    + injection Hc as <-. by apply Hnew.
    + rewrite <- Hlen. by eapply lookup_lt_Some.
  - rewrite list_lookup_insert_ne in Hc by done.
    eapply child_ok_mono; [exact Hw|exact Hr|]. by eapply Hch.
Qed.

Lemma settle_inv tasks g i t out :
  group_inv env tasks g →
  children g !! i = Some (Running t) →
  run env t = continue env out →
  group_inv env tasks (settle g i out).
Proof.
  intros [Hch Hres Hrai] Hi Hrun.
  assert (∀ t0, tasks !! i = Some t0 → child_ok env g t0 (Running t)) as Hold.
  { intros t0 Ht0. apply Forall2_same_length_lookup in Hch as [_ Hch]. by eapply Hch. }
  assert (∀ w, w ∈ warnings g → w ∈ warnings g ++ out.1) as Hsub.
  { intros w Hw. apply elem_of_app. by left. }
  destruct out as [ws p]. unfold settle, continue in *. cbn [fst snd] in *.
  destruct p as [t'|r|e]; split; cbn [children results raised warnings].
  - eapply children_insert_ok; [done|done|done|].
    intros t0 Ht0. destruct (Hold t0 Ht0) as [Ho Hws]. rewrite Hrun in Ho, Hws.
    cbn [fst snd child_ok warnings] in *. split; [done|].
    intros w Hw. destruct (Hws w Hw) as [?|Hin]; [left; auto|].
    apply elem_of_app in Hin as [?|?]; [left; apply elem_of_app; auto|by right].
  - by rewrite (omap_insert_from_None _ _ _ _ _ Hi).
  - by rewrite (omap_insert_from_None _ _ _ _ _ Hi).
  - eapply children_insert_ok; [done|done|done|].
    intros t0 Ht0. destruct (Hold t0 Ht0) as [Ho Hws]. rewrite Hrun in Ho, Hws.
    cbn [fst snd child_ok warnings] in *. split; [done|].
    intros w Hw. destruct (Hws w Hw) as [?|Hin]; [auto|].
    apply elem_of_app. by right.
  - rewrite (omap_insert_from_None _ _ _ _ _ Hi) by done. cbn. by constructor.
  - by rewrite (omap_insert_from_None _ _ _ _ _ Hi).
  - eapply children_insert_ok; [done|done| |].
    { cbn. intros _ Hnil. by apply app_eq_nil in Hnil as [_ ?]. }
    intros t0 Ht0. destruct (Hold t0 Ht0) as [Ho Hws]. rewrite Hrun in Ho, Hws.
    cbn [fst snd child_ok warnings] in *. split; [done|].
    intros w Hw. destruct (Hws w Hw) as [?|Hin]; [auto|].
    apply elem_of_app. by right.
  - by rewrite (omap_insert_from_None _ _ _ _ _ Hi).
  - rewrite (omap_insert_from_None _ _ _ _ _ Hi) by done. cbn.
    rewrite Hrai. symmetry. apply Permutation_cons_append.
Qed.

Lemma cancel_inv tasks g i t :
  group_inv env tasks g →
  children g !! i = Some (Running t) →
  raised g ≠ [] →
  group_inv env tasks (cancel g i).
Proof.
  intros [Hch Hres Hrai] Hi Hne. split; cbn [cancel children results raised].
  - eapply children_insert_ok; [done|done|done|]. by intros t0 _.
  - by rewrite (omap_insert_from_None _ _ _ _ _ Hi).
  - by rewrite (omap_insert_from_None _ _ _ _ _ Hi).
Qed.

Lemma is_nil_false {A} (l : list A) : is_nil l = false → l ≠ [].
Proof. by destruct l. Qed.

Lemma is_nil_true {A} (l : list A) : is_nil l = true → l = [].
Proof. by destruct l. Qed.

Lemma step_inv tasks g tk :
  group_inv env tasks g → group_inv env tasks (step env g tk).
Proof.
  intros Hinv. destruct tk as [i|i]; cbn [step].
  - destruct (children g !! i) as [[t| | |]|] eqn:Hi; try done.
    eapply settle_inv; [done|done|apply run_resume].
  - destruct (children g !! i) as [[t| | |]|] eqn:Hi; try done.
    destruct (is_nil (raised g)) eqn:Hn; [done|].
    eapply cancel_inv; [done|done|by apply is_nil_false].
Qed.

Lemma join_child_inv tasks g i :
  group_inv env tasks g → group_inv env tasks (join_child env g i).
Proof.
  intros Hinv. unfold join_child.
  destruct (children g !! i) as [[t| | |]|] eqn:Hi; try done.
  destruct (is_nil (raised g)) eqn:Hn.
  - eapply settle_inv; [done|done|apply run_lift_result].
  - eapply cancel_inv; [done|done|by apply is_nil_false].
Qed.

Lemma foldl_inv {A} (f : task_group R → A → task_group R) (P : task_group R → Prop) l g :
  (∀ g a, P g → P (f g a)) → P g → P (foldl f g l).
Proof. intros Hf. revert g. induction l as [|a l IH]; intros g Hg; cbn; auto. Qed.

Lemma start_all_inv {I} (inputs : list I) (fn : I → Task R) :
  group_inv env (fn <$> inputs) (start_all inputs fn).
Proof.
  split; cbn [start_all children results raised].
  - apply Forall2_fmap, Forall_Forall2_diag, Forall_forall.
    intros x _. cbn. split; [done|]. by right.
  - induction inputs; cbn; done.
  - induction inputs; cbn; done.
Qed.

Lemma run_group_inv {I} sched (inputs : list I) (fn : I → Task R) :
  group_inv env (fn <$> inputs) (run_group env sched inputs fn).
Proof.
  unfold run_group, join_all.
  apply foldl_inv; [intros; by apply join_child_inv|].
  apply foldl_inv; [intros; by apply step_inv|].
  apply start_all_inv.
Qed.

(** Once the [async with] block has been left, no child is running. *)

Lemma settle_length g i out : length (children (settle g i out)) = length (children g).
Proof. unfold settle. destruct out.2; cbn; apply length_insert. Qed.

Lemma join_child_length g i :
  length (children (join_child env g i)) = length (children g).
Proof.
  unfold join_child. destruct (children g !! i) as [[| | |]|]; try done.
  destruct (is_nil (raised g)); [apply settle_length|apply length_insert].
Qed.

Lemma join_child_lookup g i j c :
  children (join_child env g i) !! j = Some c →
  is_running c = true →
  j ≠ i ∧ children g !! j = Some c.
Proof.
  unfold join_child. intros Hj Hrun.
  destruct (children g !! i) as [ci|] eqn:Hi.
  - destruct (decide (j = i)) as [->|Hne].
    + destruct ci as [t| | |]; try (rewrite Hi in Hj; injection Hj as <-; done).
      assert (i < length (children g))%nat by (by eapply lookup_lt_Some).
      destruct (is_nil (raised g)).
      * unfold settle, lift_result in Hj. cbn [fst snd] in Hj.
        destruct (run env t).2; cbn [children] in Hj;
          rewrite list_lookup_insert_eq in Hj by done; by injection Hj as <-.
      * cbn in Hj. rewrite list_lookup_insert_eq in Hj by done. by injection Hj as <-.
    + split; [done|]. destruct ci as [t| | |]; try done.
      destruct (is_nil (raised g)).
      * unfold settle in Hj. destruct (lift_result (run env t)).2; cbn [children] in Hj;
          by rewrite list_lookup_insert_ne in Hj.
      * cbn in Hj. by rewrite list_lookup_insert_ne in Hj.
  - split; [|done]. intros ->. congruence.
Qed.

Lemma join_children_settled g (idxs : list nat) j c :
  children (foldl (join_child env) g idxs) !! j = Some c →
  is_running c = true →
  (j ∉ idxs) ∧ children g !! j = Some c.
Proof.
  revert g. induction idxs as [|i idxs IH]; intros g Hj Hrun; cbn in Hj.
  - split; [apply not_elem_of_nil|done].
  - destruct (IH _ Hj Hrun) as [Hnin Hj'].
    destruct (join_child_lookup _ _ _ _ Hj' Hrun) as [Hne Hj''].
    split; [|done]. rewrite elem_of_cons. by intros [?|?].
Qed.

Lemma run_group_settled {I} sched (inputs : list I) (fn : I → Task R) j c :
  children (run_group env sched inputs fn) !! j = Some c → is_running c = false.
Proof.
  unfold run_group, join_all. intros Hj.
  destruct (is_running c) eqn:Hrun; [|done].
  destruct (join_children_settled _ _ _ _ Hj Hrun) as [Hnin Hj'].
  destruct Hnin. apply elem_of_seq. apply lookup_lt_Some in Hj'. lia.
Qed.

(** How each child of a finished group ended. *)
Lemma run_group_child {I} sched (inputs : list I) (fn : I → Task R) i x :
  inputs !! i = Some x →
  let g := run_group env sched inputs fn in
  (∃ r, children g !! i = Some (Done r) ∧ (run env (fn x)).2 = Ok r
        ∧ r ∈ results g ∧ ∀ w, w ∈ (run env (fn x)).1 → w ∈ warnings g)
  ∨ (∃ e, children g !! i = Some (Failed e) ∧ (run env (fn x)).2 = Err e ∧ e ∈ raised g)
  ∨ (children g !! i = Some Cancelled ∧ raised g ≠ []).
Proof.
  intros Hx g.
  destruct (run_group_inv sched inputs fn) as [Hch Hres Hrai]. fold g in Hch, Hres, Hrai.
  apply Forall2_same_length_lookup in Hch as [Hlen Hch].
  assert (is_Some (children g !! i)) as [c Hc].
  { apply lookup_lt_is_Some. rewrite <- Hlen, length_fmap. by eapply lookup_lt_Some. }
  assert ((fn <$> inputs) !! i = Some (fn x)) as Ht0 by (by rewrite list_lookup_fmap, Hx).
  pose proof (Hch i _ _ Ht0 Hc) as Hok.
  pose proof (run_group_settled sched inputs fn i c Hc) as Hset.
  destruct c as [t|r|e|]; [done| | |].
  - left. exists r. destruct Hok as [Ho Hws]. repeat split; try done.
    rewrite Hres. apply list_elem_of_omap. exists (Done r).
    split; [by eapply list_elem_of_lookup_2|done].
  - right; left. exists e. destruct Hok as [Ho Hws]. repeat split; try done.
    rewrite Hrai. apply list_elem_of_omap. exists (Failed e).
    split; [by eapply list_elem_of_lookup_2|done].
  - right; right. done.
Qed.

(** Every exception of the group was raised by one of its children. *)
Lemma run_group_raised {I} sched (inputs : list I) (fn : I → Task R) e :
  e ∈ raised (run_group env sched inputs fn) →
  ∃ i x, inputs !! i = Some x
         ∧ children (run_group env sched inputs fn) !! i = Some (Failed e)
         ∧ (run env (fn x)).2 = Err e.
Proof.
  intros He. destruct (run_group_inv sched inputs fn) as [Hch _ Hrai].
  rewrite Hrai in He. apply list_elem_of_omap in He as (c & Hc & Hf).
  destruct c; try done. injection Hf as ->.
  apply list_elem_of_lookup_1 in Hc as [i Hi].
  apply Forall2_same_length_lookup in Hch as [Hlen Hch].
  assert (is_Some ((fn <$> inputs) !! i)) as [t0 Ht0].
  { apply lookup_lt_is_Some. rewrite Hlen. by eapply lookup_lt_Some. }
  pose proof (Hch i _ _ Ht0 Hi) as [Ho _].
  rewrite list_lookup_fmap in Ht0.
  destruct (inputs !! i) as [x|] eqn:Hx; [|done]. injection Ht0 as <-.
  by exists i, x.
Qed.

(** Every collected result was returned by one of its children. *)
Lemma run_group_results {I} sched (inputs : list I) (fn : I → Task R) r :
  r ∈ results (run_group env sched inputs fn) →
  ∃ x, x ∈ inputs ∧ (run env (fn x)).2 = Ok r.
Proof.
  intros He. destruct (run_group_inv sched inputs fn) as [Hch Hres _].
  rewrite Hres in He. apply list_elem_of_omap in He as (c & Hc & Hf).
  destruct c; try done. injection Hf as ->.
  apply list_elem_of_lookup_1 in Hc as [i Hi].
  apply Forall2_same_length_lookup in Hch as [Hlen Hch].
  assert (is_Some ((fn <$> inputs) !! i)) as [t0 Ht0].
  { apply lookup_lt_is_Some. rewrite Hlen. by eapply lookup_lt_Some. }
  pose proof (Hch i _ _ Ht0 Hi) as [Ho _].
  rewrite list_lookup_fmap in Ht0.
  destruct (inputs !! i) as [x|] eqn:Hx; [|done]. injection Ht0 as <-.
  exists x. split; [by eapply list_elem_of_lookup_2|done].
Qed.

(** A group one of whose coroutines fails when run alone raises. *)
Lemma run_group_fails {I} sched (inputs : list I) (fn : I → Task R) x e :
  x ∈ inputs → (run env (fn x)).2 = Err e →
  raised (run_group env sched inputs fn) ≠ [].
Proof.
  intros Hx He. apply list_elem_of_lookup_1 in Hx as [i Hi].
  destruct (run_group_child sched inputs fn i x Hi)
    as [(r & _ & Hr & _)|[(e' & _ & _ & Hin)|(_ & Hne)]]; [congruence| |done].
  intros Hnil. rewrite Hnil in Hin. by apply elem_of_nil in Hin.
Qed.

(** A group none of whose coroutines fails when run alone raises nothing. *)
Lemma run_group_succeeds {I} sched (inputs : list I) (fn : I → Task R) :
  (∀ x, x ∈ inputs → ∃ r, (run env (fn x)).2 = Ok r) →
  raised (run_group env sched inputs fn) = [].
Proof.
  intros Hall.
  destruct (raised (run_group env sched inputs fn)) as [|e es] eqn:Hr; [done|].
  destruct (run_group_raised sched inputs fn e) as (i & x & Hx & _ & He).
  { rewrite Hr. by left. }
  destruct (Hall x) as [r Hok]; [by eapply list_elem_of_lookup_2|congruence].
Qed.

End GroupFacts.

(** * Properties of schema loading *)

Section EngineFacts.
Context (env : World).

Lemma run_bind {A B} (t : Task A) (f : A → Task B) :
  run env (task_bind t f)
  = match (run env t).2 with
    | Ok a => ((run env t).1 ++ (run env (f a)).1, (run env (f a)).2)
    | Err e => ((run env t).1, Err e)
    end.
Proof.
  induction t as [r|e|w k IH|s k IH|X q k IH]; cbn.
  - by destruct (run env (f r)).
  - done.
  - rewrite IH. destruct (run env k) as [ws [a|e]]; done.
  - apply IH.
  - apply IH.
Qed.

Lemma backfill_columns_keeps strict table rows schema schema' :
  (run env (backfill_columns strict table rows schema)).2 = Ok schema' →
  schema_type schema' = schema_type schema ∧ oid schema' = oid schema.
Proof.
  revert schema. induction rows as [|[column_name attnum] rows IH]; intros schema; cbn.
  - by intros [= ->].
  - destruct (dict_get (all_columns table) column_name) as [column|].
    + intros H. by destruct (IH _ H).
    + destruct strict; cbn; [done|].
      destruct (run env (backfill_columns false table rows schema)) as [ws r] eqn:E.
      cbn. intros ->. apply IH. by rewrite E.
Qed.

Lemma backfill_columns_lenient table rows schema :
  ∃ schema', (run env (backfill_columns false table rows schema)).2 = Ok schema'.
Proof.
  revert schema. induction rows as [|[column_name attnum] rows IH]; intros schema; cbn.
  - by eexists.
  - destruct (dict_get (all_columns table) column_name) as [column|]; [apply IH|].
    cbn. destruct (IH schema) as [s Hs].
    destruct (run env (backfill_columns false table rows schema)) as [ws r]. by exists s.
Qed.

(** [backfill_table_data] run alone, by what the catalog holds. *)
Lemma run_backfill_table_data strict table :
  run env (backfill_table_data strict table)
  = match pg_class env (table_name table) with
    | None =>
        if strict then ([], Err (SchemaLoadFailedError (unknown_table_msg table)))
        else ([{| event := "Missing table"; fields := [("table", table_name table)] |}],
              Ok None)
    | Some oid =>
        let loaded := run env (backfill_columns strict table (pg_attribute env oid)
                                 (new_TableSchema table oid)) in
        match loaded.2 with
        | Err e => (loaded.1, Err e)
        | Ok schema =>
            (loaded.1,
             if strict && negb (bool_decide (unmapped_columns table schema = ∅)) then
               Err (SchemaLoadFailedError
                      (unmapped_columns_msg
                         (set_order env (unmapped_columns table schema))))
             else Ok (Some schema))
        end
    end.
Proof.
  unfold backfill_table_data. cbn [run answer].
  destruct (pg_class env (table_name table)) as [oid|]; [|by destruct strict].
  cbn [run answer]. unfold mbind, Task_bind. rewrite run_bind.
  destruct (run env (backfill_columns strict table _ _)) as [ws [schema|e]]; cbn; [|done].
  destruct strict; cbn; [|by rewrite app_nil_r].
  destruct (decide (unmapped_columns table schema = ∅)) as [He|He].
  - rewrite bool_decide_eq_true_2 by done. cbn. by rewrite app_nil_r.
  - rewrite bool_decide_eq_false_2 by done. cbn. by rewrite app_nil_r.
Qed.

Lemma backfill_strict_Ok table o :
  (run env (backfill_table_data true table)).2 = Ok o →
  ∃ schema, o = Some schema
            ∧ schema_type schema = table
            ∧ pg_class env (table_name table) = Some (oid schema)
            ∧ unmapped_columns table schema = ∅.
Proof.
  rewrite run_backfill_table_data.
  destruct (pg_class env (table_name table)) as [toid|]; [|done]. cbn zeta.
  destruct (run env (backfill_columns true table _ _)) as [ws [schema|e]] eqn:E; [|done].
  cbn. destruct (bool_decide (unmapped_columns table schema = ∅)) eqn:Hd; [|done].
  cbn. intros [= <-]. exists schema.
  destruct (backfill_columns_keeps true table (pg_attribute env toid)
              (new_TableSchema table toid) schema) as [Ht Ho]; [by rewrite E|].
  repeat split; [done|by rewrite Ho|by apply bool_decide_eq_true in Hd].
Qed.

Lemma backfill_lenient_Ok table :
  ∃ o, (run env (backfill_table_data false table)).2 = Ok o
       ∧ ∀ schema, o = Some schema →
           schema_type schema = table
           ∧ pg_class env (table_name table) = Some (oid schema).
Proof.
  rewrite run_backfill_table_data.
  destruct (pg_class env (table_name table)) as [toid|]; [|by exists None].
  cbn zeta.
  destruct (backfill_columns_lenient table (pg_attribute env toid)
              (new_TableSchema table toid)) as [schema Hs].
  destruct (backfill_columns_keeps false table _ _ schema Hs) as [Ht Ho].
  rewrite Hs. cbn. exists (Some schema). split; [done|].
  intros ? [= <-]. split; [done|by rewrite Ho].
Qed.

Lemma load_column_converters_lenient schema cols converters :
  ∃ cs, (run env (load_column_converters false schema cols converters)).2 = Ok cs.
Proof.
  revert converters. induction cols as [|column cols IH]; intros converters; cbn.
  - by eexists.
  - destruct (with_converter (type column)); cbn; [|apply IH].
    destruct (pg_type env (postgresql_name (type column))) as [toid|]; [apply IH|].
    cbn. destruct (IH converters) as [cs Hcs].
    destruct (run env (load_column_converters false schema cols converters)). by exists cs.
Qed.

Lemma load_converters_lenient schemas converters :
  ∃ cs, (run env (load_converters false schemas converters)).2 = Ok cs.
Proof.
  revert converters. induction schemas as [|schema schemas IH]; intros converters; cbn.
  - by eexists.
  - unfold mbind, Task_bind. rewrite run_bind.
    destruct (load_column_converters_lenient schema
                (dict_values (all_columns (schema_type schema))) converters) as [cs Hcs].
    rewrite Hcs. cbn. apply IH.
Qed.

Lemma schema_mapping_lookup schemas k s :
  schema_mapping schemas !! k = Some s → s ∈ schemas ∧ cls (schema_type s) = k.
Proof.
  unfold schema_mapping.
  enough (∀ m : gmap nat TableSchema,
            foldl (fun m it => <[cls (schema_type it) := it]> m) m schemas !! k = Some s →
               (s ∈ schemas ∧ cls (schema_type s) = k) ∨ m !! k = Some s) as H.
  { intros Hk. by destruct (H ∅ Hk) as [?|?]. }
  induction schemas as [|it schemas IH]; intros m Hk; cbn in Hk; [by right|].
  destruct (IH _ Hk) as [[Hin Hc]|Hm].
  - left. split; [by right|done].
  - destruct (decide (cls (schema_type it) = k)) as [<-|Hne].
    + rewrite lookup_insert_eq in Hm. injection Hm as ->. left. split; [by left|done].
    + rewrite lookup_insert_ne in Hm by done. by right.
Qed.

Lemma schema_mapping_covers schemas s :
  s ∈ schemas → is_Some (schema_mapping schemas !! cls (schema_type s)).
Proof.
  unfold schema_mapping.
  enough (∀ m : gmap nat TableSchema, s ∈ schemas ∨ is_Some (m !! cls (schema_type s)) →
               is_Some (foldl (fun m it => <[cls (schema_type it) := it]> m) m schemas
                          !! cls (schema_type s))) as H.
  { intros Hin. apply H. by left. }
  induction schemas as [|it schemas IH]; intros m [Hin|Hm]; cbn.
  - by apply elem_of_nil in Hin.
  - done.
  - apply IH. apply elem_of_cons in Hin as [->|Hin]; [right|by left].
    rewrite lookup_insert_eq. by eexists.
  - apply IH. right.
    destruct (decide (cls (schema_type it) = cls (schema_type s))) as [->|Hne].
    + rewrite lookup_insert_eq. by eexists.
    + by rewrite lookup_insert_ne.
Qed.

Lemma create_table_schemas_result sched schema_types strict :
  let g := run_group env sched schema_types (backfill_table_data strict) in
  (create_table_schemas env sched schema_types strict).2
  = if is_nil (raised g) then
      match (run env (load_converters strict (omap id (results g)) [])).2 with
      | Ok converters => Ok (schema_mapping (omap id (results g)), dict_values converters)
      | Err e => Err e
      end
    else Err (ExceptionGroup (raised g)).
Proof.
  intros g. unfold create_table_schemas, map_as_completed. fold g. cbn [fst snd].
  destruct (is_nil (raised g)); [|done]. cbn [fst snd].
  by destruct (run env (load_converters strict (omap id (results g)) [])).2.
Qed.

Lemma create_table_schemas_warnings sched schema_types strict w :
  w ∈ warnings (run_group env sched schema_types (backfill_table_data strict)) →
  w ∈ (create_table_schemas env sched schema_types strict).1.
Proof.
  intros Hw. unfold create_table_schemas, map_as_completed. cbn [fst snd].
  destruct (is_nil (raised _)); cbn [fst snd]; [|done].
  apply elem_of_app. by left.
Qed.

(** Under strict policy, a batch that raised nothing returned one schema
    for every declared table. *)
Lemma strict_batch_complete sched schema_types table :
  let g := run_group env sched schema_types (backfill_table_data true) in
  raised g = [] → table ∈ schema_types →
  ∃ schema, schema ∈ omap id (results g) ∧ schema_type schema = table.
Proof.
  intros g Hnil Hin. apply list_elem_of_lookup_1 in Hin as [i Hi].
  destruct (run_group_child env sched schema_types (backfill_table_data true) i table Hi)
    as [(r & _ & Hr & Hres & _)|[(e & _ & _ & He)|(_ & Hne)]].
  - destruct (backfill_strict_Ok table r Hr) as (schema & -> & Ht & _).
    exists schema. split; [|done]. apply list_elem_of_omap. by exists (Some schema).
  - fold g in He. rewrite Hnil in He. by apply elem_of_nil in He.
  - done.
Qed.

(** Under strict policy, every collected schema maps all declared columns
    of its table. *)
Lemma strict_batch_schemas sched schema_types schema :
  schema ∈ omap id (results (run_group env sched schema_types (backfill_table_data true))) →
  unmapped_columns (schema_type schema) schema = ∅.
Proof.
  intros Hin. apply list_elem_of_omap in Hin as (o & Ho & Hid). cbn in Hid. subst o.
  destruct (run_group_results env sched schema_types (backfill_table_data true) _ Ho)
    as (table & _ & Hrun).
  destruct (backfill_strict_Ok table _ Hrun) as (s & [= <-] & Ht & _ & Hun).
  by rewrite Ht.
Qed.

Lemma unmapped_columns_empty table schema c :
  unmapped_columns table schema = ∅ →
  c ∈ dict_values (all_columns table) → is_Some (column_mapping schema !! c).
Proof.
  unfold unmapped_columns. intros He Hc. apply elem_of_dom.
  destruct (decide (c ∈ dom (column_mapping schema))) as [|Hn]; [done|].
  assert (c ∈ (list_to_set (dict_values (all_columns table)) ∖ dom (column_mapping schema)
               : gset Column)) as Hd.
  { apply elem_of_difference. split; [by apply elem_of_list_to_set|done]. }
  rewrite He in Hd. by apply not_elem_of_empty in Hd.
Qed.

End EngineFacts.

(** C1.  Under strict policy, whatever the interleaving of the per-table
    tasks: as soon as one task has failed, [create_table_schemas] raises
    one exception group holding exactly the failures of the tasks that
    failed, and returns no schema map; a table whose reconciliation fails
    makes every batch it is declared in end that way; and a batch that does
    return a schema map has a schema in it for every declared table. *)
Theorem strict_batch_fails_as_one_group
    (env : World) (sched : list tick) (schema_types : list TableClass) :
  let g := run_group env sched schema_types (backfill_table_data true) in
  let out := (create_table_schemas env sched schema_types true).2 in
  (∀ i e, children g !! i = Some (Failed e) →
     out = Err (ExceptionGroup (raised g)) ∧ e ∈ raised g)
  ∧ raised g ≡ₚ omap failure (children g)
  ∧ (∀ e, e ∈ raised g →
       ∃ table, table ∈ schema_types ∧ (run env (backfill_table_data true table)).2 = Err e)
  ∧ (∀ table e, table ∈ schema_types →
       (run env (backfill_table_data true table)).2 = Err e →
       raised g ≠ [] ∧ out = Err (ExceptionGroup (raised g)))
  ∧ (∀ m converters, out = Ok (m, converters) →
       ∀ table, table ∈ schema_types → is_Some (m !! cls table)).
Proof.
  intros g out.
  pose proof (create_table_schemas_result env sched schema_types true) as Hout.
  cbn zeta in Hout. fold g out in Hout.
  destruct (run_group_inv env sched schema_types (backfill_table_data true))
    as [_ _ Hrai]. fold g in Hrai.
  assert (raised g ≠ [] → out = Err (ExceptionGroup (raised g))) as Hfail.
  { intros Hne. rewrite Hout. destruct (raised g); done. }
  split; [|split; [done|split; [|split]]].
  - intros i e Hi.
    assert (e ∈ raised g) as He.
    { rewrite Hrai. apply list_elem_of_omap. exists (Failed e).
      split; [by eapply list_elem_of_lookup_2|done]. }
    split; [|done]. apply Hfail. intros Hnil. rewrite Hnil in He.
    by apply elem_of_nil in He.
  - intros e He.
    destruct (run_group_raised env sched schema_types (backfill_table_data true) e He)
      as (i & table & Hi & _ & Hrun).
    exists table. split; [by eapply list_elem_of_lookup_2|done].
  - intros table e Hin Hrun.
    pose proof (run_group_fails env sched schema_types (backfill_table_data true)
                  table e Hin Hrun) as Hne.
    split; [done|by apply Hfail].
  - intros m converters Hok table Hin.
    rewrite Hout in Hok.
    destruct (is_nil (raised g)) eqn:Hn; [|done]. apply is_nil_true in Hn.
    destruct (run env (load_converters true (omap id (results g)) [])).2; [|done].
    injection Hok as <- _.
    destruct (strict_batch_complete env sched schema_types table Hn Hin)
      as (schema & Hs & <-).
    by apply schema_mapping_covers.
Qed.

Lemma join_concat sep parts : join sep parts = String.concat sep parts.
Proof.
  induction parts as [|p [|q rest] IH]; [done|done|].
  change (p +:+ sep +:+ join sep (q :: rest) = p +:+ sep +:+ String.concat sep (q :: rest)).
  by rewrite IH.
Qed.

Lemma string_app_assoc (a b c : string) : (a +:+ b) +:+ c = a +:+ b +:+ c.
Proof.
  induction a as [|x a IH]; [done|].
  change (String x ((a +:+ b) +:+ c) = String x (a +:+ b +:+ c)). by rewrite IH.
Qed.

Lemma string_app_empty_r (s : string) : s +:+ "" = s.
Proof.
  induction s as [|c s IH]; [done|].
  change (String c (s +:+ "") = String c s). by rewrite IH.
Qed.

Lemma occurs_in_app_r part pre s : occurs_in part s → occurs_in part (pre +:+ s).
Proof.
  intros (before & after & ->). exists (pre +:+ before), after.
  by rewrite string_app_assoc.
Qed.

Lemma occurs_in_concat sep part parts :
  part ∈ parts → occurs_in part (String.concat sep parts).
Proof.
  induction parts as [|p [|q rest] IH]; intros Hin.
  - by apply elem_of_nil in Hin.
  - apply list_elem_of_singleton in Hin as ->. exists "", "".
    by rewrite string_app_empty_r.
  - change (occurs_in part (p +:+ sep +:+ String.concat sep (q :: rest))).
    apply elem_of_cons in Hin as [->|Hin].
    + by exists "", (sep +:+ String.concat sep (q :: rest)).
    + rewrite <- string_app_assoc. by apply occurs_in_app_r, IH.
Qed.

(** C2.  Under strict policy, once all catalog column rows of a table are
    processed, a non-empty difference between the declared columns and the
    mapped ones makes the reconciliation fail with the "Unmapped columns"
    error.  Its message is that prefix followed by the names of the
    columns of the difference, separated by ", ", in the order in which the
    run iterates the set — some arrangement of the difference, not a fixed
    one; whatever the arrangement, every declared column that is not mapped
    is in it and its name occurs in the message.  Hence a schema returned
    for a table, and every schema of a schema map loaded under strict
    policy, maps every declared column of its table. *)
Theorem strict_schema_maps_every_declared_column (env : World) (table : TableClass) :
  (∀ toid schema,
     pg_class env (table_name table) = Some toid →
     (run env (backfill_columns true table (pg_attribute env toid)
                 (new_TableSchema table toid))).2 = Ok schema →
     unmapped_columns table schema ≠ ∅ →
     ∃ unmapped message,
       unmapped = set_order env (unmapped_columns table schema)
       ∧ unmapped ≡ₚ elements (unmapped_columns table schema)
       ∧ message = "Unmapped columns: " +:+ String.concat ", " (name <$> unmapped)
       ∧ (run env (backfill_table_data true table)).2
         = Err (SchemaLoadFailedError message)
       ∧ ∀ c, c ∈ dict_values (all_columns table) →
              column_mapping schema !! c = None →
              c ∈ unmapped ∧ occurs_in (name c) message)
  ∧ (∀ schema,
       (run env (backfill_table_data true table)).2 = Ok (Some schema) →
       schema_type schema = table
       ∧ ∀ c, c ∈ dict_values (all_columns table) → is_Some (column_mapping schema !! c))
  ∧ (∀ sched schema_types m converters k schema,
       (create_table_schemas env sched schema_types true).2 = Ok (m, converters) →
       m !! k = Some schema →
       ∀ c, c ∈ dict_values (all_columns (schema_type schema)) →
            is_Some (column_mapping schema !! c)).
Proof.
  split; [|split].
  - intros toid schema Hoid Hcols Hne.
    eexists _, _. split; [done|]. split; [apply set_order_perm|]. split; [done|]. split.
    + rewrite run_backfill_table_data, Hoid. cbn zeta. rewrite Hcols. cbn.
      rewrite bool_decide_eq_false_2 by done.
      unfold unmapped_columns_msg. by rewrite join_concat.
    + intros c Hc Hnone.
      assert (c ∈ set_order env (unmapped_columns table schema)) as Hin.
      { rewrite (set_order_perm env), elem_of_elements. unfold unmapped_columns.
        rewrite elem_of_difference, elem_of_list_to_set, not_elem_of_dom. done. }
      split; [done|].
      apply occurs_in_app_r, occurs_in_concat. by apply list_elem_of_fmap_2.
  - intros schema Hrun.
    destruct (backfill_strict_Ok env table _ Hrun) as (s & [= <-] & Ht & _ & Hun).
    split; [done|]. intros c Hc. by eapply unmapped_columns_empty.
  - intros sched schema_types m converters k schema Hok Hk c Hc.
    rewrite create_table_schemas_result in Hok.
    destruct (is_nil (raised _)); [|done].
    destruct (run env (load_converters true _ [])).2; [|done].
    injection Hok as <- _.
    apply schema_mapping_lookup in Hk as [Hin _].
    eapply unmapped_columns_empty; [|done].
    by eapply strict_batch_schemas.
Qed.

(** C3.  For a declared table whose name the server catalog does not have:
    under strict policy its reconciliation fails with the "Unknown table"
    error and loading any batch that declares it fails; under lenient
    policy its reconciliation logs the "Missing table" warning and returns
    no schema, and loading any batch that declares it succeeds, logs that
    warning, and has no schema for the table in its schema map. *)
Theorem unknown_table_strict_fails_lenient_skips (env : World) (table : TableClass) :
  pg_class env (table_name table) = None →
  run env (backfill_table_data true table)
  = ([], Err (SchemaLoadFailedError ("Unknown table " +:+ table_name table)))
  ∧ run env (backfill_table_data false table)
    = ([{| event := "Missing table"; fields := [("table", table_name table)] |}], Ok None)
  ∧ (∀ sched schema_types, table ∈ schema_types →
       ∃ excs, (create_table_schemas env sched schema_types true).2
               = Err (ExceptionGroup excs) ∧ excs ≠ []
               ∧ spawn_isopods_from_pool env sched schema_types true
                 = Err (ExceptionGroup excs))
  ∧ (∀ sched schema_types, table ∈ schema_types →
       (∀ table', table' ∈ schema_types → cls table' = cls table →
                  table_name table' = table_name table) →
       ∃ m converters,
         (create_table_schemas env sched schema_types false).2 = Ok (m, converters)
         ∧ m !! cls table = None
         ∧ {| event := "Missing table"; fields := [("table", table_name table)] |}
           ∈ (create_table_schemas env sched schema_types false).1
         ∧ spawn_isopods_from_pool env sched schema_types false = Ok {| _schemas := m |}).
Proof.
  intros Hmiss.
  assert (run env (backfill_table_data true table)
          = ([], Err (SchemaLoadFailedError ("Unknown table " +:+ table_name table))))
    as Hstrict by (by rewrite run_backfill_table_data, Hmiss).
  assert (run env (backfill_table_data false table)
          = ([{| event := "Missing table"; fields := [("table", table_name table)] |}],
             Ok None))
    as Hlenient by (by rewrite run_backfill_table_data, Hmiss).
  split; [done|split; [done|split]].
  - intros sched schema_types Hin.
    exists (raised (run_group env sched schema_types (backfill_table_data true))).
    assert (raised (run_group env sched schema_types (backfill_table_data true)) ≠ [])
      as Hne.
    { eapply run_group_fails; [done|]. by rewrite Hstrict. }
    assert ((create_table_schemas env sched schema_types true).2
            = Err (ExceptionGroup
                     (raised (run_group env sched schema_types (backfill_table_data true)))))
      as Hout.
    { rewrite create_table_schemas_result. by destruct (raised _). }
    split; [done|split; [done|]].
    unfold spawn_isopods_from_pool. by rewrite Hout.
  - intros sched schema_types Hin Hident.
    set (g := run_group env sched schema_types (backfill_table_data false)).
    assert (raised g = []) as Hnil.
    { apply run_group_succeeds. intros x _.
      destruct (backfill_lenient_Ok env x) as (o & Ho & _). by exists o. }
    destruct (load_converters_lenient env (omap id (results g)) []) as [cs Hcs].
    exists (schema_mapping (omap id (results g))), (dict_values cs).
    assert ((create_table_schemas env sched schema_types false).2
            = Ok (schema_mapping (omap id (results g)), dict_values cs)) as Hout.
    { rewrite create_table_schemas_result. fold g. by rewrite Hnil, Hcs. }
    split; [done|split; [|split]].
    + destruct (schema_mapping (omap id (results g)) !! cls table) as [s|] eqn:Hs; [|done].
      apply schema_mapping_lookup in Hs as [Hs Hcls].
      apply list_elem_of_omap in Hs as (o & Ho & Hid). cbn in Hid. subst o.
      destruct (run_group_results env sched schema_types (backfill_table_data false) _ Ho)
        as (table' & Hin' & Hrun).
      destruct (backfill_lenient_Ok env table') as (o & Ho' & Hsome).
      rewrite Hrun in Ho'. injection Ho' as <-.
      destruct (Hsome s eq_refl) as [Ht Hpg]. subst table'.
      rewrite (Hident _ Hin' Hcls), Hmiss in Hpg. done.
    + apply create_table_schemas_warnings. fold g.
      apply list_elem_of_lookup_1 in Hin as [i Hi].
      destruct (run_group_child env sched schema_types (backfill_table_data false) i table Hi)
        as [(r & _ & _ & _ & Hws)|[(e & _ & _ & He)|(_ & Hne)]].
      * apply Hws. rewrite Hlenient. by left.
      * fold g in He. rewrite Hnil in He. by apply elem_of_nil in He.
      * done.
    + unfold spawn_isopods_from_pool. by rewrite Hout.
Qed.

(** ** Schema loading on concrete servers *)

(** Both tables are missing and both tasks get to run: the group holds
    both failures. *)
Example both_failures_are_aggregated :
  create_table_schemas empty_server [Resume 0; Resume 1] [ExampleTable; OtherTable] true
  = ([], Err (ExceptionGroup [unknown_table_error ExampleTable;
                              unknown_table_error OtherTable])).
Proof. vm_compute. reflexivity. Qed.

(** The first task fails before the second one is resumed: the second one
    is cancelled and the group holds the one failure. *)
Example cancelled_sibling_is_not_reported :
  create_table_schemas empty_server [Resume 0; Cancel 1] [ExampleTable; OtherTable] true
  = ([], Err (ExceptionGroup [unknown_table_error ExampleTable])).
Proof. vm_compute. reflexivity. Qed.

(** A task that was already half way is cancelled by its sibling's failure;
    no schema map comes out. *)
Example successful_sibling_is_discarded :
  create_table_schemas server_with_table [Resume 1; Resume 0; Cancel 0]
    [ExampleTable; OtherTable] true
  = ([], Err (ExceptionGroup [unknown_table_error OtherTable])).
Proof. vm_compute. reflexivity. Qed.

Example example_table_class :
  new_table_class 1 "example_table"
    [("id", new_Column (Int4Type 10) ""); ("field", new_Column (TextType 11) "")]
  = Ok ExampleTable.
Proof. reflexivity. Qed.

(** After a lenient load against a server without the table, the pool has
    no schema for it: [row_unreconciled] is what a fetch then wraps. *)
Example lenient_pool_lacks_missing_table :
  spawn_isopods_from_pool empty_server [] [ExampleTable] false = Ok empty_pool.
Proof. vm_compute. reflexivity. Qed.

Example strict_load_of_matching_table :
  create_table_schemas server_with_table [] [ExampleTable] true
  = ([], Ok (<[1%nat := example_schema]> ∅, [])).
Proof. vm_compute. reflexivity. Qed.

(** The converter pass: one converter per enumeration type; a type the
    server lacks fails a strict load with a plain error, after the group. *)
Example strict_load_registers_converter :
  (create_table_schemas (enum_server true) [] [EnumTable] true).2
  = Ok (<[4%nat := {| schema_type := EnumTable; oid := 16390;
                      column_mapping :=
                        <[enum_field := 2]>
                          (<[{| type := Int4Type 14; owner := Some 4%nat; name := "id" |}
                             := 1]> ∅) |}]> ∅,
        [{| conv_oid := 16388; conv_type := example_enum |}]).
Proof. vm_compute. reflexivity. Qed.

Example strict_load_unknown_type :
  (create_table_schemas (enum_server false) [] [EnumTable] true).2
  = Err (SchemaLoadFailedError "Can't find OID for type example_enum").
Proof. vm_compute. reflexivity. Qed.

Example lenient_load_skips_missing_table :
  create_table_schemas server_with_table [Resume 1] [ExampleTable; OtherTable] false
  = ([missing_table_warning OtherTable], Ok (<[1%nat := example_schema]> ∅, [])).
Proof. vm_compute. reflexivity. Qed.

(** C1 on the server without tables, both tasks resumed in turn. *)
Lemma strict_batch_fails_as_one_group_witness :
  (create_table_schemas empty_server [Resume 0; Resume 1] [ExampleTable; OtherTable] true).2
  = Err (ExceptionGroup
           (raised (run_group empty_server [Resume 0; Resume 1] [ExampleTable; OtherTable]
                      (backfill_table_data true))))
  ∧ unknown_table_error OtherTable
    ∈ raised (run_group empty_server [Resume 0; Resume 1] [ExampleTable; OtherTable]
                (backfill_table_data true)).
Proof.
  apply (proj1 (strict_batch_fails_as_one_group empty_server [Resume 0; Resume 1]
                  [ExampleTable; OtherTable])
           1%nat (unknown_table_error OtherTable)).
  vm_compute. reflexivity.
Defined.

(** C2 on the server whose table lacks [field]; on the server whose table
    has no column at all, where two processes that iterate the difference
    in opposite orders raise two different messages, each with both names;
    and on the server that has both columns. *)
Lemma strict_schema_maps_every_declared_column_witness :
  (run server_without_field (backfill_table_data true ExampleTable)).2
  = Err (SchemaLoadFailedError "Unmapped columns: field")
  ∧ (∃ message other_message,
       (run server_without_columns (backfill_table_data true ExampleTable)).2
       = Err (SchemaLoadFailedError message)
       ∧ (run (other_process server_without_columns)
            (backfill_table_data true ExampleTable)).2
         = Err (SchemaLoadFailedError other_message)
       ∧ message ≠ other_message
       ∧ occurs_in "id" message ∧ occurs_in "field" message
       ∧ occurs_in "id" other_message ∧ occurs_in "field" other_message)
  ∧ (run server_with_table (backfill_table_data true ExampleTable)).2
    = Ok (Some example_schema)
  ∧ is_Some (column_mapping example_schema !! col_field).
Proof.
  pose (schema := {| schema_type := ExampleTable; oid := 16384;
                     column_mapping := <[col_id := 1]> ∅ |}).
  assert (∀ s c, c ∈ dict_values (all_columns ExampleTable) →
                 column_mapping s !! c = None → unmapped_columns ExampleTable s ≠ ∅)
    as Hne.
  { intros s c Hc Hnone Hempty.
    assert (c ∈ unmapped_columns ExampleTable s) as Hin.
    { unfold unmapped_columns.
      by rewrite elem_of_difference, elem_of_list_to_set, not_elem_of_dom. }
    rewrite Hempty in Hin. by apply not_elem_of_empty in Hin. }
  assert (col_id ∈ dict_values (all_columns ExampleTable)) as Hid
    by (cbn; rewrite !elem_of_cons; auto).
  assert (col_field ∈ dict_values (all_columns ExampleTable)) as Hfield
    by (cbn; rewrite !elem_of_cons; auto).
  destruct (strict_schema_maps_every_declared_column server_without_field ExampleTable)
    as (Hdiff & _ & _).
  destruct (Hdiff 16384 schema) as (unmapped & message & -> & _ & -> & Herr & _).
  { reflexivity. }
  { vm_compute. reflexivity. }
  { by apply (Hne schema col_field). }
  destruct (strict_schema_maps_every_declared_column server_without_columns ExampleTable)
    as (Hdiff1 & _ & _).
  destruct (Hdiff1 16384 (new_TableSchema ExampleTable 16384))
    as (unmapped1 & message1 & -> & _ & -> & Herr1 & Hnames1).
  { reflexivity. }
  { reflexivity. }
  { by apply (Hne _ col_field). }
  destruct (strict_schema_maps_every_declared_column
              (other_process server_without_columns) ExampleTable)
    as (Hdiff2 & _ & _).
  destruct (Hdiff2 16384 (new_TableSchema ExampleTable 16384))
    as (unmapped2 & message2 & -> & _ & -> & Herr2 & Hnames2).
  { reflexivity. }
  { reflexivity. }
  { by apply (Hne _ col_field). }
  destruct (strict_schema_maps_every_declared_column server_with_table ExampleTable)
    as (_ & Hmapped & _).
  destruct (Hmapped example_schema) as [_ Hall]; [vm_compute; reflexivity|].
  split; [|split; [|split]].
  - rewrite Herr. vm_compute. reflexivity.
  - eexists _, _. split; [exact Herr1|]. split; [exact Herr2|]. split.
    + vm_compute. discriminate.
    + split; [|split; [|split]].
      * by apply (Hnames1 col_id).
      * by apply (Hnames1 col_field).
      * by apply (Hnames2 col_id).
      * by apply (Hnames2 col_field).
  - vm_compute. reflexivity.
  - by apply Hall.
Defined.

(** C3 on the server without tables. *)
Lemma unknown_table_strict_fails_lenient_skips_witness :
  run empty_server (backfill_table_data true ExampleTable)
  = ([], Err (SchemaLoadFailedError "Unknown table example_table"))
  ∧ run empty_server (backfill_table_data false ExampleTable)
    = ([missing_table_warning ExampleTable], Ok None)
  ∧ (∃ excs, (create_table_schemas empty_server [] [ExampleTable] true).2
             = Err (ExceptionGroup excs) ∧ excs ≠ []
             ∧ spawn_isopods_from_pool empty_server [] [ExampleTable] true
               = Err (ExceptionGroup excs))
  ∧ (∃ m converters,
       (create_table_schemas empty_server [Resume 1] [ExampleTable; OtherTable] false).2
       = Ok (m, converters)
       ∧ m !! cls ExampleTable = None
       ∧ missing_table_warning ExampleTable
         ∈ (create_table_schemas empty_server [Resume 1] [ExampleTable; OtherTable] false).1
       ∧ spawn_isopods_from_pool empty_server [Resume 1] [ExampleTable; OtherTable] false
         = Ok {| _schemas := m |}).
Proof.
  destruct (unknown_table_strict_fails_lenient_skips empty_server ExampleTable eq_refl)
    as (Hstrict & Hlenient & Hbatch & Hskip).
  split; [exact Hstrict|]. split; [exact Hlenient|]. split.
  - apply Hbatch. by left.
  - apply Hskip; [by left|].
    intros table' Hin Hcls. rewrite !elem_of_cons in Hin.
    destruct Hin as [->|[->|Hin]]; [reflexivity|discriminate|by apply elem_of_nil in Hin].
Defined.

(** ** More lookups on concrete rows *)

(** C5 at a NULL [field] and at an index past the end of the row. *)
Lemma get_suppresses_exactly_KeyError_witness :
  get row_null_field (KCol col_field) = Ok PyNone
  ∧ get row_id_field (KInt 2) = Err IndexError.
Proof.
  split.
  - apply (proj2 (proj1 (get_suppresses_exactly_KeyError row_null_field (KCol col_field)))).
    left. exists (KMsg (null_value_msg col_field)). reflexivity.
  - apply (proj2 (proj2 (proj2 (get_suppresses_exactly_KeyError row_id_field (KInt 2))))
             2 eq_refl).
    left. cbn. lia.
Defined.

(** C9 at a fresh column: a plain class is refused, an unbound column
    cannot be looked up, a table class becomes the owner. *)
Lemma set_name_binds_owner_witness :
  __set_name__ (new_Column (Int4Type 10) "") plain_cls "id"
  = Err (TypeError "Columns can't be used on non-TableSchema classes")
  ∧ get row_id_field (KCol (new_Column (Int4Type 10) "")) = Err (AttributeError "owner")
  ∧ ∃ bound, __set_name__ (new_Column (Int4Type 10) "") example_table_cls "id" = Ok bound
             ∧ owner bound = Some 1%nat
             ∧ type bound = Int4Type 10
             ∧ name bound = "id".
Proof.
  split; [|split].
  - apply (proj1 (set_name_binds_owner (new_Column (Int4Type 10) "") plain_cls "id")).
    reflexivity.
  - apply (proj1 (proj2 (set_name_binds_owner (new_Column (Int4Type 10) "") plain_cls "id"))
             eq_refl row_id_field).
  - apply (proj2 (proj2 (set_name_binds_owner (new_Column (Int4Type 10) "")
                           example_table_cls "id"))).
    reflexivity.
Defined.

(** C10 on the two-value row: index [-1] is the last value, [-3] is out of
    bounds. *)
Lemma getitem_int_negative_index_witness :
  (∃ v, data (_row row_id_field) !! 1%nat = Some v
        ∧ __getitem__ row_id_field (KInt (-1)) = Ok v
        ∧ get row_id_field (KInt (-1)) = Ok v)
  ∧ __getitem__ row_id_field (KInt (-3)) = Err IndexError
  ∧ get row_id_field (KInt (-3)) = Err IndexError.
Proof.
  split; [|split].
  - apply (proj1 (getitem_int_negative_index row_id_field (-1))). cbn. lia.
  - apply (proj1 (proj2 (getitem_int_negative_index row_id_field (-3)))). right. cbn. lia.
  - apply (proj2 (proj2 (getitem_int_negative_index row_id_field (-3)))). right. cbn. lia.
Defined.


(** * Properties of [pascal_to_snake] *)

Lemma isupper_lower c : isupper c = true → isupper (lower c) = false.
Proof.
  destruct c as [[] [] [] [] [] [] [] []]; vm_compute; congruence.
Qed.

Lemma lower_not_underscore c : isupper c = true → lower c ≠ "_"%char.
Proof.
  destruct c as [[] [] [] [] [] [] [] []]; vm_compute; congruence.
Qed.

Lemma snake_chars_app a b : snake_chars (a +:+ b) = snake_chars a +:+ snake_chars b.
Proof.
  induction a as [|c a IH]; simpl; [done|]. rewrite IH. by destruct (isupper c).
Qed.

Lemma snake_chars_id word : no_upper word → snake_chars word = word.
Proof.
  induction word as [|c word IH]; cbn; [done|]. intros [Hc Hw].
  rewrite Hc. by rewrite IH.
Qed.

(** The one-byte function is the function over any alphabet, taken at the
    alphabet of bytes. *)
Lemma pascal_to_snake_one_byte word :
  String.list_ascii_of_string (pascal_to_snake word)
  = str_pascal_to_snake isupper (fun c => [lower c]) "_"%char (String.list_ascii_of_string word).
Proof.
  unfold pascal_to_snake, str_pascal_to_snake.
  assert (∀ w, String.list_ascii_of_string (lstrip "_" w)
               = str_lstrip "_"%char (String.list_ascii_of_string w)) as ->.
  { induction w as [|c w IH]; cbn; [done|]. by destruct (decide (c = "_"%char)). }
  f_equal. induction word as [|c word IH]; cbn; [done|].
  destruct (isupper c); cbn; by rewrite IH.
Qed.

Section StrFacts.
Context {char : Type} `{EqDecision char}.
Variable isupper : char → bool.
Variable lower : char → list char.
Variable underscore : char.

Lemma str_lstrip_head word : head (str_lstrip underscore word) ≠ Some underscore.
Proof.
  induction word as [|c word IH]; cbn; [done|].
  destruct (decide (c = underscore)); [done|]. cbn. congruence.
Qed.

Lemma str_lstrip_id word :
  head word ≠ Some underscore → str_lstrip underscore word = word.
Proof.
  destruct word as [|c word]; cbn; [done|]. intros Hc.
  rewrite decide_False; [done|]. congruence.
Qed.

Lemma str_lstrip_suffix word : str_lstrip underscore word `suffix_of` word.
Proof.
  induction word as [|c word IH]; cbn; [done|].
  destruct (decide (c = underscore)); [by apply suffix_cons_r|done].
Qed.

Lemma str_snake_chars_app a b :
  str_snake_chars isupper lower underscore (a ++ b)
  = str_snake_chars isupper lower underscore a
    ++ str_snake_chars isupper lower underscore b.
Proof.
  induction a as [|c a IH]; cbn; [done|]. rewrite IH.
  destruct (isupper c); cbn; [|done]. by rewrite <- app_assoc.
Qed.

Lemma str_snake_chars_id word :
  upper_free isupper word → str_snake_chars isupper lower underscore word = word.
Proof.
  induction 1 as [|c word Hc _ IH]; cbn; [done|]. by rewrite Hc, IH.
Qed.

Lemma str_snake_chars_elem d word :
  d ∈ str_snake_chars isupper lower underscore word →
  d = underscore
  ∨ (d ∈ word ∧ isupper d = false)
  ∨ ∃ c, c ∈ word ∧ isupper c = true ∧ d ∈ lower c.
Proof.
  induction word as [|c word IH]; cbn; [by intros ?%elem_of_nil|].
  assert (d ∈ str_snake_chars isupper lower underscore word →
          d = underscore
          ∨ (d ∈ c :: word ∧ isupper d = false)
          ∨ ∃ c', c' ∈ c :: word ∧ isupper c' = true ∧ d ∈ lower c') as Hrest.
  { intros Hd. destruct (IH Hd) as [?|[[? ?]|(c' & ? & ? & ?)]].
    - by left.
    - right; left. split; [by right|done].
    - right; right. exists c'. split; [by right|done]. }
  destruct (isupper c) eqn:Hc.
  - rewrite elem_of_cons, elem_of_app. intros [->|[Hd|Hd]]; [by left| |by apply Hrest].
    right; right. exists c. split; [by left|done].
  - rewrite elem_of_cons. intros [->|Hd]; [|by apply Hrest].
    right; left. split; [by left|done].
Qed.

Lemma str_snake_chars_keeps d word :
  d ∈ word → isupper d = false → d ∈ str_snake_chars isupper lower underscore word.
Proof.
  induction word as [|c word IH]; cbn; intros Hin Hd; [by apply elem_of_nil in Hin|].
  apply elem_of_cons in Hin as [<-|Hin].
  - rewrite Hd. by left.
  - specialize (IH Hin Hd). destruct (isupper c); [|by right].
    right. apply elem_of_app. by right.
Qed.

Lemma str_snake_chars_lowers c d word :
  c ∈ word → isupper c = true → d ∈ lower c →
  d ∈ str_snake_chars isupper lower underscore word.
Proof.
  induction word as [|c' word IH]; cbn; intros Hin Hc Hd; [by apply elem_of_nil in Hin|].
  apply elem_of_cons in Hin as [<-|Hin].
  - rewrite Hc. right. apply elem_of_app. by left.
  - specialize (IH Hin Hc Hd). destruct (isupper c'); [|by right].
    right. apply elem_of_app. by right.
Qed.

Lemma str_lstrip_keeps d word :
  d ≠ underscore → d ∈ word → d ∈ str_lstrip underscore word.
Proof.
  intros Hne. induction word as [|c word IH]; cbn; [done|]. intros Hin.
  destruct (decide (c = underscore)) as [->|]; [|done].
  apply IH. apply elem_of_cons in Hin as [?|?]; [done|done].
Qed.

Lemma str_snake_chars_upper_free word :
  isupper underscore = false →
  lowers_cleanly isupper lower word →
  upper_free isupper (str_snake_chars isupper lower underscore word).
Proof.
  intros Hus Hlow. apply Forall_forall. intros d Hd.
  destruct (str_snake_chars_elem d word Hd) as [->|[[_ ?]|(c & Hc & Hup & Hin)]];
    [done|done|].
  specialize (Hlow c Hc Hup). by eapply Forall_forall in Hlow.
Qed.

Lemma str_pascal_to_snake_id word :
  upper_free isupper word → head word ≠ Some underscore →
  str_pascal_to_snake isupper lower underscore word = word.
Proof.
  intros Hup Hhead. unfold str_pascal_to_snake.
  rewrite str_snake_chars_id by done. by apply str_lstrip_id.
Qed.

Lemma str_pascal_to_snake_elem d word :
  d ∈ str_pascal_to_snake isupper lower underscore word →
  d ∈ str_snake_chars isupper lower underscore word.
Proof.
  intros Hd. by eapply elem_of_suffix; [|apply str_lstrip_suffix].
Qed.

Lemma str_pascal_to_snake_upper_free word :
  isupper underscore = false →
  lowers_cleanly isupper lower word →
  upper_free isupper (str_pascal_to_snake isupper lower underscore word).
Proof.
  intros Hus Hlow. apply Forall_forall. intros d Hd%str_pascal_to_snake_elem.
  pose proof (str_snake_chars_upper_free word Hus Hlow) as Hall.
  by eapply Forall_forall in Hall.
Qed.

End StrFacts.

(** X1.  The shape of what [pascal_to_snake] returns, for every word of
    every alphabet: it does not start with an underscore, and its
    characters other than underscores are exactly the characters of the
    word that are not upper-case and the characters of the lower-case
    forms of the word's upper-case characters.  So it has no upper-case
    character when the underscore is none and the lower-case forms of the
    word's upper-case characters have none. *)
Theorem pascal_to_snake_shape {char : Type} `{EqDecision char}
    (isupper : char → bool) (lower : char → list char) (underscore : char)
    (word : list char) :
  let result := str_pascal_to_snake isupper lower underscore word in
  head result ≠ Some underscore
  ∧ (∀ d, d ≠ underscore →
       d ∈ result
       ↔ (d ∈ word ∧ isupper d = false)
         ∨ ∃ c, c ∈ word ∧ isupper c = true ∧ d ∈ lower c)
  ∧ (isupper underscore = false →
     lowers_cleanly isupper lower word →
     upper_free isupper result).
Proof.
  cbn zeta. split; [apply str_lstrip_head|]. split.
  - intros d Hne. split.
    + intros Hd%str_pascal_to_snake_elem.
      by destruct (str_snake_chars_elem isupper lower underscore d word Hd) as [?|?].
    + intros Hd. apply str_lstrip_keeps; [done|].
      destruct Hd as [[Hin Hd]|(c & Hin & Hc & Hd)].
      * by apply str_snake_chars_keeps.
      * by eapply str_snake_chars_lowers.
  - apply str_pascal_to_snake_upper_free.
Qed.

(** X1 on [ExampleTable], over the alphabet of bytes. *)
Lemma pascal_to_snake_shape_witness :
  String.list_ascii_of_string (pascal_to_snake "ExampleTable")
  = String.list_ascii_of_string "example_table"
  ∧ head (String.list_ascii_of_string (pascal_to_snake "ExampleTable")) ≠ Some "_"%char
  ∧ upper_free isupper (String.list_ascii_of_string (pascal_to_snake "ExampleTable")).
Proof.
  split; [reflexivity|].
  rewrite pascal_to_snake_one_byte.
  destruct (pascal_to_snake_shape isupper (fun c => [lower c]) "_"%char
              (String.list_ascii_of_string "ExampleTable")) as (Hhead & _ & Hfree).
  split; [exact Hhead|]. apply Hfree; [reflexivity|].
  intros c _ Hc. constructor; [by apply isupper_lower|constructor].
Defined.

(** X2.  [pascal_to_snake] leaves a word alone that has no upper-case
    character and no leading underscore.  Applying it twice is the same as
    applying it once when the underscore is not upper-case and the
    lower-case forms of the word's upper-case characters have no
    upper-case character; it is not when an upper-case character is its
    own lower-case form: the second application then puts another
    underscore before it. *)
Theorem pascal_to_snake_idempotent {char : Type} `{EqDecision char}
    (isupper : char → bool) (lower : char → list char) (underscore : char)
    (word : list char) :
  let pascal_to_snake := str_pascal_to_snake isupper lower underscore in
  (upper_free isupper word → head word ≠ Some underscore → pascal_to_snake word = word)
  ∧ (isupper underscore = false →
     lowers_cleanly isupper lower word →
     pascal_to_snake (pascal_to_snake word) = pascal_to_snake word)
  ∧ (∀ a c,
       isupper underscore = false → isupper a = false → a ≠ underscore →
       isupper c = true → lower c = [c] →
       pascal_to_snake [a; c] = [a; underscore; c]
       ∧ pascal_to_snake (pascal_to_snake [a; c]) = [a; underscore; underscore; c]).
Proof.
  cbn zeta. split; [apply str_pascal_to_snake_id|]. split.
  - intros Hus Hlow.
    apply str_pascal_to_snake_id; [by apply str_pascal_to_snake_upper_free|].
    apply str_lstrip_head.
  - intros a c Hus Ha Hne Hc Hlow.
    assert (str_pascal_to_snake isupper lower underscore [a; c] = [a; underscore; c]) as ->.
    { unfold str_pascal_to_snake. cbn. rewrite Ha, Hc, Hlow. cbn.
      by rewrite decide_False. }
    split; [done|]. unfold str_pascal_to_snake. cbn. rewrite Ha, Hus, Hc, Hlow. cbn.
    by rewrite decide_False.
Qed.

(** X2 on [ExampleTable], over the alphabet of bytes. *)
Lemma pascal_to_snake_idempotent_witness :
  String.list_ascii_of_string (pascal_to_snake (pascal_to_snake "ExampleTable"))
  = String.list_ascii_of_string (pascal_to_snake "ExampleTable").
Proof.
  rewrite !pascal_to_snake_one_byte.
  apply (proj1 (proj2 (pascal_to_snake_idempotent isupper (fun c => [lower c]) "_"%char
                         (String.list_ascii_of_string "ExampleTable")))); [reflexivity|].
  intros c _ Hc. constructor; [by apply isupper_lower|constructor].
Defined.

(** X3.  Where the underscore is not an upper-case character,
    [pascal_to_snake] cannot tell a word from the same word with an
    underscore put in front, nor — when the lower-case form of an
    upper-case character has no upper-case character — that character from
    an underscore followed by its lower-case form: distinct class names can
    get the same table name. *)
Theorem pascal_to_snake_collisions {char : Type} `{EqDecision char}
    (isupper : char → bool) (lower : char → list char) (underscore : char)
    (before after : list char) (c : char) :
  let pascal_to_snake := str_pascal_to_snake isupper lower underscore in
  isupper underscore = false →
  pascal_to_snake (underscore :: after) = pascal_to_snake after
  ∧ (isupper c = true → upper_free isupper (lower c) →
     pascal_to_snake (before ++ c :: after)
     = pascal_to_snake (before ++ underscore :: lower c ++ after)).
Proof.
  cbn zeta. intros Hus. unfold str_pascal_to_snake. split.
  - cbn. rewrite Hus. cbn. by rewrite decide_True.
  - intros Hc Hlow. f_equal. rewrite !str_snake_chars_app. f_equal. cbn.
    rewrite Hus, Hc. f_equal. rewrite str_snake_chars_app. f_equal.
    by rewrite str_snake_chars_id.
Qed.

(** X3 over the alphabet of bytes: [_Example], [Example] and [_example]
    get one table name, and so do [ExampleTable] and [Example_table]. *)
Lemma pascal_to_snake_collisions_witness :
  (pascal_to_snake "_Example" = "example" ∧ pascal_to_snake "Example" = "example"
   ∧ pascal_to_snake "_example" = "example"
   ∧ pascal_to_snake "ExampleTable" = "example_table"
   ∧ pascal_to_snake "Example_table" = "example_table")
  ∧ str_pascal_to_snake isupper (fun c => [lower c]) "_"%char
      (String.list_ascii_of_string "_Example")
    = str_pascal_to_snake isupper (fun c => [lower c]) "_"%char
        (String.list_ascii_of_string "Example")
  ∧ str_pascal_to_snake isupper (fun c => [lower c]) "_"%char
      (String.list_ascii_of_string "ExampleTable")
    = str_pascal_to_snake isupper (fun c => [lower c]) "_"%char
        (String.list_ascii_of_string "Example_table").
Proof.
  split; [repeat split; reflexivity|].
  destruct (pascal_to_snake_collisions isupper (fun c => [lower c]) "_"%char
              (String.list_ascii_of_string "Example") (String.list_ascii_of_string "able") "T"%char
              eq_refl) as [_ Hupper].
  split.
  - apply (pascal_to_snake_collisions isupper (fun c => [lower c]) "_"%char
             [] (String.list_ascii_of_string "Example") "E"%char eq_refl).
  - apply Hupper; [reflexivity|]. repeat constructor.
Defined.

Lemma snake_chars_pascal_word humps :
  Forall hump humps →
  snake_chars (pascal_word humps)
  = match humps with
    | [] => EmptyString
    | _ => String "_" (join "_" (snake_part <$> humps))
    end.
Proof.
  induction 1 as [|[u rest] humps [Hu Hrest] Hall IH]; [done|].
  cbn [pascal_word fst snd snake_chars] in *. rewrite Hu.
  rewrite snake_chars_app, (snake_chars_id rest Hrest), IH.
  destruct humps as [|h humps]; cbn.
  - unfold snake_part. cbn [fst snd]. by rewrite string_app_empty_r.
  - done.
Qed.

(** X4.  On a PascalCase word — humps that each start with an upper-case
    character and go on without one — [pascal_to_snake] returns the humps,
    each with its first character in lower case, joined by underscores. *)
Theorem pascal_to_snake_humps (humps : list (ascii * string)) :
  Forall hump humps →
  pascal_to_snake (pascal_word humps) = join "_" (snake_part <$> humps).
Proof.
  intros Hall. unfold pascal_to_snake. rewrite snake_chars_pascal_word by done.
  destruct Hall as [|[u rest] humps [Hu _] _]; [done|].
  cbn [lstrip]. rewrite decide_True by done.
  set (parts := snake_part <$> humps).
  assert (∃ tail, join "_" (snake_part (u, rest) :: parts) = String (lower u) tail)
    as [tail Htail].
  { destruct parts; cbn; eauto. }
  rewrite fmap_cons. fold parts. rewrite Htail. cbn [lstrip].
  rewrite decide_False; [done|]. by apply lower_not_underscore.
Qed.

(** X4 on [ExampleTable]. *)
Lemma pascal_to_snake_humps_witness :
  pascal_to_snake "ExampleTable" = "example_table".
Proof.
  apply (pascal_to_snake_humps [("E"%char, "xample"); ("T"%char, "able")]).
  repeat constructor.
Defined.

(** * Properties of the class statement *)

(** X5.  Once [__set_name__] has bound a column under a non-empty attribute
    name, the column has a non-empty name, and binding it again to the same
    class, under whatever attribute name, changes nothing. *)
Theorem set_name_again_is_noop
    (self bound : Column) (owner_cls : pyclass) (attr_name other_name : string) :
  attr_name ≠ "" →
  __set_name__ self owner_cls attr_name = Ok bound →
  name bound ≠ "" ∧ __set_name__ bound owner_cls other_name = Ok bound.
Proof.
  intros Hattr. unfold __set_name__.
  destruct (is_table_schema owner_cls); cbn; [|done].
  destruct (decide (name self = "")) as [He|Hne]; intros [= <-]; cbn.
  - split; [done|]. by rewrite decide_False.
  - split; [done|]. by rewrite decide_False.
Qed.

Lemma set_name_again_is_noop_witness :
  name col_id ≠ "" ∧ __set_name__ col_id example_table_cls "alias" = Ok col_id.
Proof.
  apply (set_name_again_is_noop (new_Column (Int4Type 10) "") col_id example_table_cls "id").
  - discriminate.
  - reflexivity.
Defined.

Lemma dict_get_set {V} (d : list (string * V)) k v k' :
  dict_get (dict_set d k v) k' = if decide (k = k') then Some v else dict_get d k'.
Proof.
  induction d as [|[k0 v0] d IH]; cbn.
  - destruct (decide (k = k')); done.
  - destruct (decide (k0 = k)) as [->|Hne]; cbn.
    + destruct (decide (k = k')); done.
    + rewrite IH. destruct (decide (k0 = k')) as [->|]; [|done].
      by rewrite decide_False.
Qed.

Lemma dict_set_keys {V} (d : list (string * V)) k v k' :
  k' ∈ (dict_set d k v).*1 ↔ k' = k ∨ k' ∈ d.*1.
Proof.
  induction d as [|[k0 v0] d IH]; cbn.
  - rewrite elem_of_cons, elem_of_nil. tauto.
  - destruct (decide (k0 = k)) as [->|Hne]; cbn; rewrite !elem_of_cons.
    + tauto.
    + rewrite IH. tauto.
Qed.

Lemma dict_set_NoDup {V} (d : list (string * V)) k v :
  NoDup d.*1 → NoDup (dict_set d k v).*1.
Proof.
  induction d as [|[k0 v0] d IH]; cbn; intros Hnd.
  - apply NoDup_singleton.
  - apply NoDup_cons in Hnd as [Hk0 Hnd].
    destruct (decide (k0 = k)) as [->|Hne]; cbn.
    + by apply NoDup_cons.
    + apply NoDup_cons. split; [|by apply IH].
      rewrite dict_set_keys. intros [?|?]; done.
Qed.

Lemma dict_get_None_keys {V} (d : list (string * V)) k :
  dict_get d k = None ↔ k ∉ d.*1.
Proof.
  induction d as [|[k0 v0] d IH]; cbn.
  - split; [intros _; apply not_elem_of_nil|done].
  - rewrite not_elem_of_cons. destruct (decide (k0 = k)) as [->|Hne].
    + split; [done|]. intros [? _]. done.
    + rewrite IH. split; [intros ?; split; [congruence|done]|by intros [_ ?]].
Qed.

Lemma set_names_bound id klass_body :
  ∃ body, set_names {| class_id := id; is_table_schema := true |} klass_body = Ok body
          ∧ Forall2 (bound_attr id) klass_body body.
Proof.
  induction klass_body as [|[k v] klass_body (body & Hbody & Hall)].
  - by exists [].
  - unfold set_names in *. cbn [mapM]. rewrite Hbody.
    destruct v as [c0|s|o]; cbn.
    + eexists. split; [done|]. constructor; [|done]. split; [done|]. cbn.
      by destruct (decide (name c0 = "")).
    + eexists. split; [done|]. by constructor.
    + eexists. split; [done|]. by constructor.
Qed.

Lemma bound_attr_dict_get id (klass_body body : list (string * pyattr)) k :
  Forall2 (bound_attr id) klass_body body →
  (dict_get klass_body k = None → dict_get body k = None)
  ∧ (∀ s, dict_get klass_body k = Some (AttrStr s) → dict_get body k = Some (AttrStr s)).
Proof.
  induction 1 as [|[k0 v0] [k1 v1] klass_body body [Hk Hv] Hall [IHn IHs]]; [done|].
  cbn in Hk, Hv. subst k1. cbn.
  destruct (decide (k0 = k)); [|done]. split; [done|].
  intros s [= ->]. by rewrite Hv.
Qed.




(** X7.  The [table_name] a class statement leaves on the class: without a
    [table_name] in the class body it is the [table_name] keyword, or else
    the snake-cased class name; a string [table_name] in the class body
    stays, and the keyword is then ignored; the class named [TableSchema]
    gets none. *)
Theorem class_statement_table_name
    (id : nat) (class_name : string) (klass_body : list (string * pyattr))
    (table_name : option string) (attrs : class_attrs) :
  class_statement id class_name klass_body table_name = Ok attrs →
  (dict_get klass_body "table_name" = None → class_name ≠ "TableSchema" →
     attr_table_name attrs
     = Some (AttrStr (default (pascal_to_snake class_name) table_name)))
  ∧ (∀ s, dict_get klass_body "table_name" = Some (AttrStr s) →
          attr_table_name attrs = Some (AttrStr s))
  ∧ (dict_get klass_body "table_name" = None → class_name = "TableSchema" →
     attr_table_name attrs = None).
Proof.
  destruct (set_names_bound id klass_body) as (body & Hbody & Hall).
  unfold class_statement. rewrite Hbody. intros [= <-].
  destruct (bound_attr_dict_get id klass_body body "table_name" Hall) as [Hnone Hstr].
  cbn [TableMeta_init attr_table_name]. split; [|split].
  - intros Hn Hname. rewrite (Hnone Hn).
    rewrite !bool_decide_eq_true_2 by done. by destruct table_name.
  - intros s Hs. rewrite (Hstr s Hs).
    rewrite (bool_decide_eq_false_2 (_ = None)) by done. by rewrite andb_false_r.
  - intros Hn ->. rewrite (Hnone Hn).
    rewrite (bool_decide_eq_false_2 (_ ≠ _)); [done|]. by intros H.
Qed.

(** X7 on [class ExampleTable(TableSchema)], and on a class whose body
    names the table while the keyword names it otherwise. *)
Lemma class_statement_table_name_witness :
  (attrs ← class_statement 1 "ExampleTable"
             [("id", AttrColumn (new_Column (Int4Type 10) ""));
              ("field", AttrColumn (new_Column (TextType 11) ""))] None;
   mret (as_table_class 1 attrs))
  = Ok (Some ExampleTable)
  ∧ ∃ attrs, class_statement 2 "Other" [("table_name", AttrStr "from_body")]
               (Some "from_keyword") = Ok attrs
             ∧ attr_table_name attrs = Some (AttrStr "from_body").
Proof.
  split; [reflexivity|].
  eexists. split; [reflexivity|].
  apply (proj1 (proj2 (class_statement_table_name 2 "Other"
                         [("table_name", AttrStr "from_body")] (Some "from_keyword") _
                         eq_refl)) "from_body").
  reflexivity.
Defined.

(** * Properties of the per-table reconciliation *)

Section BackfillFacts.
Context (env : World) (table : TableClass).

Lemma backfill_columns_strict_stops pre n a post schema :
  (∀ n', n' ∈ pre.*1 → declared table n') →
  dict_get (all_columns table) n = None →
  run env (backfill_columns true table (pre ++ (n, a) :: post) schema)
  = ([], Err (SchemaLoadFailedError (missing_column_msg table n))).
Proof.
  intros Hpre Hn. revert schema.
  induction pre as [|[n' a'] pre IH]; intros schema; cbn.
  - by rewrite Hn.
  - destruct (Hpre n') as [c Hc]; [cbn; by left|]. rewrite Hc.
    apply IH. intros n'' Hin. apply Hpre. cbn. by right.
Qed.

Lemma backfill_columns_strict_Ok rows schema :
  (∀ n, n ∈ rows.*1 → declared table n) →
  ∃ schema', run env (backfill_columns true table rows schema) = ([], Ok schema').
Proof.
  revert schema. induction rows as [|[n a] rows IH]; intros schema Hall; cbn.
  - by eexists.
  - destruct (Hall n) as [c Hc]; [cbn; by left|]. rewrite Hc.
    apply IH. intros n' Hin. apply Hall. cbn. by right.
Qed.

Lemma backfill_columns_strict_declared rows schema schema' :
  (run env (backfill_columns true table rows schema)).2 = Ok schema' →
  ∀ n, n ∈ rows.*1 → declared table n.
Proof.
  revert schema. induction rows as [|[n a] rows IH]; intros schema Hrun n' Hin; cbn in *.
  - by apply elem_of_nil in Hin.
  - destruct (dict_get (all_columns table) n) as [c|] eqn:Hc; [|done].
    apply elem_of_cons in Hin as [->|Hin]; [by exists c|by eapply IH].
Qed.

Lemma backfill_columns_lenient_warnings rows schema :
  (run env (backfill_columns false table rows schema)).1
  = undeclared_warning table <$> filter (fun n => ¬ declared table n) rows.*1.
Proof.
  revert schema. induction rows as [|[n a] rows IH]; intros schema; [done|].
  rewrite fmap_cons. cbn [fst backfill_columns].
  destruct (dict_get (all_columns table) n) as [c|] eqn:Hc.
  - rewrite filter_cons_False; [apply IH|].
    intros Hnd. apply Hnd. by exists c.
  - rewrite filter_cons_True; last first.
    { unfold declared. rewrite Hc. by intros [? ?]. }
    rewrite fmap_cons, <- (IH schema). cbn [run].
    by destruct (run env (backfill_columns false table rows schema)) as [ws r].
Qed.

(** What the column loop records, and what it keeps. *)
Lemma backfill_columns_mapping strict rows schema schema' :
  (run env (backfill_columns strict table rows schema)).2 = Ok schema' →
  (∀ c a, column_mapping schema' !! c = Some a →
     column_mapping schema !! c = Some a
     ∨ ∃ n, (n, a) ∈ rows ∧ dict_get (all_columns table) n = Some c)
  ∧ (∀ c, is_Some (column_mapping schema !! c) → is_Some (column_mapping schema' !! c))
  ∧ (∀ n a c, (n, a) ∈ rows → dict_get (all_columns table) n = Some c →
       is_Some (column_mapping schema' !! c)).
Proof.
  revert schema. induction rows as [|[n a] rows IH]; intros schema Hrun; cbn in Hrun.
  - injection Hrun as <-. split; [by left|split; [done|]].
    intros n a c Hin. by apply elem_of_nil in Hin.
  - destruct (dict_get (all_columns table) n) as [c0|] eqn:Hc0.
    + destruct (IH _ Hrun) as (Hsound & Hmono & Hcompl). split; [|split].
      * intros c a' Hc. destruct (Hsound c a' Hc) as [Hold|(n' & Hin & Hn')].
        -- cbn in Hold. destruct (decide (c0 = c)) as [->|Hne].
           ++ rewrite lookup_insert_eq in Hold. injection Hold as ->.
              right. exists n. split; [by left|done].
           ++ rewrite lookup_insert_ne in Hold by done. by left.
        -- right. exists n'. split; [by right|done].
      * intros c Hc. apply Hmono. cbn.
        destruct (decide (c0 = c)) as [->|Hne];
          [rewrite lookup_insert_eq; by eexists|by rewrite lookup_insert_ne].
      * intros n' a' c Hin Hn'. apply elem_of_cons in Hin as [[= -> ->]|Hin].
        -- apply Hmono. cbn. rewrite Hc0 in Hn'. injection Hn' as ->.
           rewrite lookup_insert_eq. by eexists.
        -- by eapply Hcompl.
    + assert ((run env (backfill_columns strict table rows schema)).2 = Ok schema') as Hrun'.
      { destruct strict; [done|]. cbn in Hrun.
        by destruct (run env (backfill_columns false table rows schema)). }
      destruct (IH _ Hrun') as (Hsound & Hmono & Hcompl). split; [|split; [done|]].
      * intros c a' Hc. destruct (Hsound c a' Hc) as [Hold|(n' & Hin & Hn')]; [by left|].
        right. exists n'. split; [by right|done].
      * intros n' a' c Hin Hn'. apply elem_of_cons in Hin as [[= -> ->]|Hin];
          [congruence|by eapply Hcompl].
Qed.

Lemma backfill_table_data_Ok strict schema :
  (run env (backfill_table_data strict table)).2 = Ok (Some schema) →
  pg_class env (table_name table) = Some (oid schema)
  ∧ schema_type schema = table
  ∧ (run env (backfill_columns strict table (pg_attribute env (oid schema))
                (new_TableSchema table (oid schema)))).2 = Ok schema.
Proof.
  rewrite run_backfill_table_data.
  destruct (pg_class env (table_name table)) as [toid|]; [|by destruct strict].
  cbn zeta.
  destruct (run env (backfill_columns strict table _ _)) as [ws [s|e]] eqn:E; [|done].
  cbn [fst snd].
  destruct (strict && negb (bool_decide (unmapped_columns table s = ∅))); [done|].
  intros [= <-].
  destruct (backfill_columns_keeps env strict table (pg_attribute env toid)
              (new_TableSchema table toid) s) as [Ht Ho]; [by rewrite E|].
  cbn in Ho. rewrite Ho. split; [done|split; [done|]]. by rewrite E.
Qed.

End BackfillFacts.

Lemma unmapped_columns_empty_iff table schema :
  unmapped_columns table schema = ∅
  ↔ ∀ c, c ∈ dict_values (all_columns table) → is_Some (column_mapping schema !! c).
Proof.
  split; [intros He c Hc; by eapply unmapped_columns_empty|].
  intros Hall. apply leibniz_equiv, elem_of_equiv_empty. intros c Hc.
  unfold unmapped_columns in Hc. apply elem_of_difference in Hc as [Hin Hout].
  apply elem_of_list_to_set in Hin. apply Hout, elem_of_dom. by apply Hall.
Qed.

(** X8.  Under strict policy, the first catalog column that the table does
    not declare fails the table's reconciliation with the "Missing column
    in schema" error naming the table and that column, and with it every
    batch that declares the table. *)
Theorem strict_undeclared_server_column
    (env : World) (table : TableClass) (toid : Z)
    (pre post : list (string * Z)) (n : string) (a : Z) :
  pg_class env (table_name table) = Some toid →
  pg_attribute env toid = pre ++ (n, a) :: post →
  (∀ n', n' ∈ pre.*1 → declared table n') →
  dict_get (all_columns table) n = None →
  run env (backfill_table_data true table)
  = ([], Err (SchemaLoadFailedError
                ("Missing column in schema: " +:+ table_name table +:+ "." +:+ n)))
  ∧ ∀ sched schema_types, table ∈ schema_types →
      ∃ excs, (create_table_schemas env sched schema_types true).2
              = Err (ExceptionGroup excs) ∧ excs ≠ [].
Proof.
  intros Hoid Hrows Hpre Hn.
  assert (run env (backfill_table_data true table)
          = ([], Err (SchemaLoadFailedError (missing_column_msg table n)))) as Hrun.
  { rewrite run_backfill_table_data, Hoid. cbn zeta. rewrite Hrows.
    by rewrite (backfill_columns_strict_stops env table pre n a post _ Hpre Hn). }
  split; [done|]. intros sched schema_types Hin.
  exists (raised (run_group env sched schema_types (backfill_table_data true))).
  assert (raised (run_group env sched schema_types (backfill_table_data true)) ≠ []) as Hne.
  { eapply run_group_fails; [done|]. by rewrite Hrun. }
  split; [|done]. rewrite create_table_schemas_result. by destruct (raised _).
Qed.

Lemma strict_undeclared_server_column_witness :
  run server_with_extra_column (backfill_table_data true ExampleTable)
  = ([], Err (SchemaLoadFailedError "Missing column in schema: example_table.missing"))
  ∧ ∃ excs, (create_table_schemas server_with_extra_column [] [ExampleTable] true).2
            = Err (ExceptionGroup excs) ∧ excs ≠ [].
Proof.
  destruct (strict_undeclared_server_column server_with_extra_column ExampleTable 16384
              [("id", 1); ("field", 2)] [] "missing" 3) as [Hrun Hbatch].
  - reflexivity.
  - reflexivity.
  - intros n' Hin. cbn in Hin. rewrite !elem_of_cons in Hin.
    destruct Hin as [->|[->|Hin]]; [by eexists|by eexists|by apply elem_of_nil in Hin].
  - reflexivity.
  - split; [exact Hrun|]. apply Hbatch. by left.
Defined.

(** X9.  Under lenient policy, the reconciliation of a table that the
    server has never fails: it returns a schema of that table with the
    server's object ID, and logs one "Missing column in schema" warning for
    each catalog column that the table does not declare, in catalog
    order. *)
Theorem lenient_reconciliation_warns (env : World) (table : TableClass) (toid : Z) :
  pg_class env (table_name table) = Some toid →
  ∃ schema,
    run env (backfill_table_data false table)
    = (undeclared_warning table
         <$> filter (fun n => ¬ declared table n) (pg_attribute env toid).*1,
       Ok (Some schema))
    ∧ oid schema = toid
    ∧ schema_type schema = table.
Proof.
  intros Hoid.
  destruct (backfill_columns_lenient env table (pg_attribute env toid)
              (new_TableSchema table toid)) as [schema Hs].
  destruct (backfill_columns_keeps env false table _ _ schema Hs) as [Ht Ho].
  exists schema. split; [|done].
  rewrite run_backfill_table_data, Hoid. cbn zeta. rewrite Hs. cbn [andb].
  by rewrite backfill_columns_lenient_warnings.
Qed.

Lemma lenient_reconciliation_warns_witness :
  ∃ schema,
    run server_with_extra_column (backfill_table_data false ExampleTable)
    = ([undeclared_warning ExampleTable "missing"], Ok (Some schema))
    ∧ oid schema = 16384
    ∧ schema_type schema = ExampleTable.
Proof.
  apply (lenient_reconciliation_warns server_with_extra_column ExampleTable 16384).
  reflexivity.
Defined.

(** X10.  In a schema returned by the reconciliation of a table, under
    either policy: every recorded ordinal is the [attnum] of a catalog row
    of that table whose [attname] names the column; every catalog row that
    names a declared column has that column mapped; and when the catalog
    names no column twice and the declared columns are keyed by their own
    names, each such column is mapped to the [attnum] of its row. *)
Theorem reconciled_ordinals_come_from_catalog
    (env : World) (table : TableClass) (strict : bool) (schema : TableSchema) :
  (run env (backfill_table_data strict table)).2 = Ok (Some schema) →
  pg_class env (table_name table) = Some (oid schema)
  ∧ (∀ c a, column_mapping schema !! c = Some a →
       ∃ n, (n, a) ∈ pg_attribute env (oid schema)
            ∧ dict_get (all_columns table) n = Some c)
  ∧ (∀ n a c, (n, a) ∈ pg_attribute env (oid schema) →
       dict_get (all_columns table) n = Some c →
       is_Some (column_mapping schema !! c))
  ∧ (NoDup (pg_attribute env (oid schema)).*1 →
     (∀ n c, dict_get (all_columns table) n = Some c → name c = n) →
     ∀ n a c, (n, a) ∈ pg_attribute env (oid schema) →
       dict_get (all_columns table) n = Some c →
       column_mapping schema !! c = Some a).
Proof.
  intros Hrun.
  destruct (backfill_table_data_Ok env table strict schema Hrun) as (Hoid & _ & Hcols).
  destruct (backfill_columns_mapping env table strict _ _ _ Hcols)
    as (Hsound & _ & Hcompl).
  assert (∀ c a, column_mapping schema !! c = Some a →
            ∃ n, (n, a) ∈ pg_attribute env (oid schema)
                 ∧ dict_get (all_columns table) n = Some c) as Hsound'.
  { intros c a Hc. by destruct (Hsound c a Hc) as [Hold|?]. }
  split; [done|split; [done|split; [done|]]].
  intros Hnd Hkeyed n a c Hin Hn.
  destruct (Hcompl n a c Hin Hn) as [a' Ha'].
  destruct (Hsound' c a' Ha') as (n' & Hin' & Hn').
  rewrite <- (Hkeyed n c Hn), (Hkeyed n' c Hn') in Hin.
  pose proof (NoDup_fmap_elem_inj fst _ _ _ Hnd Hin Hin' eq_refl) as [= ->]. done.
Qed.

Lemma reconciled_ordinals_come_from_catalog_witness :
  pg_class server_with_table "example_table" = Some 16384
  ∧ column_mapping example_schema !! col_field = Some 2.
Proof.
  destruct (reconciled_ordinals_come_from_catalog server_with_table ExampleTable true
              example_schema) as (Hoid & _ & _ & Hexact).
  - vm_compute. reflexivity.
  - split; [exact Hoid|].
    apply (Hexact) with (n := "field").
    + change (NoDup ["id"; "field"]). apply NoDup_cons. split; [|apply NoDup_singleton].
      apply not_elem_of_cons. split; [discriminate|apply not_elem_of_nil].
    + intros n c. cbn [all_columns ExampleTable dict_get].
      destruct (decide ("id" = n)) as [<-|_]; [by intros [= <-]|].
      destruct (decide ("field" = n)) as [<-|_]; [by intros [= <-]|done].
    + change ((("field", 2) : string * Z) ∈ [("id", 1); ("field", 2)]).
      rewrite !elem_of_cons. auto.
    + reflexivity.
Defined.

(** X11.  Under strict policy the reconciliation of a table returns a
    schema exactly when the server has the table, every catalog column of
    it is declared, and every declared column is named by a catalog
    column. *)
Theorem strict_reconciliation_succeeds_iff (env : World) (table : TableClass) :
  (∃ schema, (run env (backfill_table_data true table)).2 = Ok (Some schema))
  ↔ ∃ toid,
      pg_class env (table_name table) = Some toid
      ∧ (∀ n, n ∈ (pg_attribute env toid).*1 → declared table n)
      ∧ (∀ c, c ∈ dict_values (all_columns table) →
           ∃ n, n ∈ (pg_attribute env toid).*1
                ∧ dict_get (all_columns table) n = Some c).
Proof.
  split.
  - intros [schema Hrun].
    destruct (backfill_table_data_Ok env table true schema Hrun) as (Hoid & _ & Hcols).
    destruct (backfill_strict_Ok env table _ Hrun) as (s & [= <-] & _ & _ & Hun).
    destruct (backfill_columns_mapping env table true _ _ _ Hcols) as (Hsound & _ & _).
    exists (oid schema). split; [done|split].
    + by eapply backfill_columns_strict_declared.
    + intros c Hc.
      destruct (proj1 (unmapped_columns_empty_iff table schema) Hun c Hc) as [a Ha].
      destruct (Hsound c a Ha) as [Hold|(n & Hin & Hn)]; [done|].
      exists n. split; [|done]. by apply (list_elem_of_fmap_2 fst) in Hin.
  - intros (toid & Hoid & Hdecl & Hall).
    destruct (backfill_columns_strict_Ok env table (pg_attribute env toid)
                (new_TableSchema table toid) Hdecl) as [schema Hs].
    exists schema. rewrite run_backfill_table_data, Hoid. cbn zeta. rewrite Hs.
    cbn [fst snd andb].
    destruct (backfill_columns_mapping env table true _ _ schema
                (f_equal snd Hs)) as (_ & _ & Hcompl).
    rewrite bool_decide_eq_true_2; [done|].
    apply unmapped_columns_empty_iff. intros c Hc.
    destruct (Hall c Hc) as (n & Hin & Hn).
    apply list_elem_of_fmap in Hin as ([n' a] & -> & Hin). by eapply Hcompl.
Qed.

(** * Properties of the loaded schema map and converters *)

Section LoadFacts.
Context (env : World).

Lemma backfill_columns_Err strict table rows schema e :
  (run env (backfill_columns strict table rows schema)).2 = Err e →
  strict = true
  ∧ ∃ n, n ∈ rows.*1 ∧ ¬ declared table n
         ∧ e = SchemaLoadFailedError (missing_column_msg table n).
Proof.
  revert schema. induction rows as [|[n a] rows IH]; intros schema; cbn; [done|].
  destruct (dict_get (all_columns table) n) as [c|] eqn:Hc.
  - intros He. destruct (IH _ He) as (Hs & n' & Hin & Hn' & ->).
    split; [done|]. exists n'. split; [by right|done].
  - destruct strict; cbn.
    + intros [= <-]. split; [done|]. exists n. split; [by left|].
      split; [|done]. unfold declared. rewrite Hc. by intros [? ?].
    + destruct (run env (backfill_columns false table rows schema)) as [ws r] eqn:E.
      cbn. intros ->. destruct (IH schema) as (Hs & _); [by rewrite E|done].
Qed.

(** Why a per-table reconciliation fails. *)
Lemma backfill_table_data_Err strict table e :
  (run env (backfill_table_data strict table)).2 = Err e →
  strict = true
  ∧ ∃ msg, e = SchemaLoadFailedError msg
           ∧ (msg = unknown_table_msg table
              ∨ (∃ n, msg = missing_column_msg table n ∧ ¬ declared table n)
              ∨ (∃ unmapped, msg = unmapped_columns_msg unmapped
                             ∧ ∀ c, c ∈ unmapped → c ∈ dict_values (all_columns table))).
Proof.
  rewrite run_backfill_table_data.
  destruct (pg_class env (table_name table)) as [toid|].
  - cbn zeta.
    destruct (run env (backfill_columns strict table _ _)) as [ws [s|e']] eqn:E;
      cbn [fst snd].
    + destruct strict; cbn [andb]; [|done].
      destruct (bool_decide (unmapped_columns table s = ∅)); cbn; [done|].
      intros [= <-]. split; [done|]. eexists. split; [done|]. right; right.
      eexists. split; [done|]. intros c Hc.
      rewrite (set_order_perm env), elem_of_elements in Hc.
      unfold unmapped_columns in Hc. apply elem_of_difference in Hc as [Hc _].
      by apply elem_of_list_to_set in Hc.
    + intros [= <-].
      destruct (backfill_columns_Err strict table (pg_attribute env toid)
                  (new_TableSchema table toid) e') as (Hs & n & _ & Hn & ->);
        [by rewrite E|].
      split; [done|]. eexists. split; [done|]. right; left. by exists n.
  - destruct strict; cbn; [|done]. intros [= <-]. split; [done|].
    eexists. split; [done|]. by left.
Qed.


Lemma dict_get_elem_of {V} (d : list (string * V)) k v :
  dict_get d k = Some v → (k, v) ∈ d.
Proof.
  induction d as [|[k0 v0] d IH]; cbn; [done|].
  destruct (decide (k0 = k)) as [->|_]; [intros [= ->]; by left|].
  intros H. right. by apply IH.
Qed.

Lemma dict_elem_of_get {V} (d : list (string * V)) k v :
  NoDup d.*1 → (k, v) ∈ d → dict_get d k = Some v.
Proof.
  induction d as [|[k0 v0] d IH]; cbn; intros Hnd Hin; [by apply elem_of_nil in Hin|].
  apply NoDup_cons in Hnd as [Hk0 Hnd].
  apply elem_of_cons in Hin as [[= -> ->]|Hin]; [by rewrite decide_True|].
  destruct (decide (k0 = k)) as [->|_]; [|by apply IH].
  destruct Hk0. by apply (list_elem_of_fmap_2 fst) in Hin.
Qed.

Lemma load_column_converters_run strict schema cols Q cs cs' :
  (∀ c, c ∈ cols → Q (type c)) →
  converters_ok env Q cs →
  (run env (load_column_converters strict schema cols cs)).2 = Ok cs' →
  converters_ok env Q cs'
  ∧ (∀ k, is_Some (dict_get cs k) → is_Some (dict_get cs' k))
  ∧ (∀ c, c ∈ cols → with_converter (type c) = true →
       (strict = true → is_Some (pg_type env (postgresql_name (type c))))
       ∧ (is_Some (pg_type env (postgresql_name (type c))) →
          is_Some (dict_get cs' (postgresql_name (type c))))).
Proof.
  revert cs. induction cols as [|column cols IH]; intros cs HQ Hok; cbn.
  - intros [= <-]. split; [done|split; [done|]]. intros c Hc. by apply elem_of_nil in Hc.
  - assert (∀ c, c ∈ cols → Q (type c)) as HQ' by (intros c Hc; apply HQ; by right).
    destruct (with_converter (type column)) eqn:Hw; cbn.
    + destruct (pg_type env (postgresql_name (type column))) as [toid|] eqn:Hty.
      * intros Hrun.
        destruct (IH (dict_set cs (postgresql_name (type column))
                        (create_converter (type column) toid)) HQ')
          as (Hok' & Hmono & Hcov); [|done|].
        { destruct Hok as [Hnd Hall]. split; [by apply dict_set_NoDup|].
          intros k cv. rewrite dict_get_set.
          destruct (decide (postgresql_name (type column) = k)) as [<-|_]; [|apply Hall].
          intros [= <-]. cbn. repeat split; try done. apply HQ. by left. }
        split; [done|split].
        -- intros k Hk. apply Hmono. rewrite dict_get_set.
           destruct (decide (postgresql_name (type column) = k)); [by eexists|done].
        -- intros c Hc Hwc. apply elem_of_cons in Hc as [->|Hc]; [|by apply Hcov].
           rewrite Hty. split; [by eexists|]. intros _. apply Hmono.
           rewrite dict_get_set, decide_True by done. by eexists.
      * destruct strict; cbn; [done|].
        destruct (run env (load_column_converters false schema cols cs)) as [ws r] eqn:E.
        cbn. intros ->.
        destruct (IH cs HQ' Hok) as (Hok' & Hmono & Hcov); [by rewrite E|].
        split; [done|split; [done|]].
        intros c Hc Hwc. apply elem_of_cons in Hc as [->|Hc]; [|by apply Hcov].
        rewrite Hty. split; [done|]. by intros [? ?].
    + intros Hrun. destruct (IH cs HQ' Hok Hrun) as (Hok' & Hmono & Hcov).
      split; [done|split; [done|]].
      intros c Hc Hwc. apply elem_of_cons in Hc as [->|Hc]; [congruence|by apply Hcov].
Qed.

Lemma load_column_converters_Err strict schema cols cs e :
  (run env (load_column_converters strict schema cols cs)).2 = Err e →
  strict = true
  ∧ ∃ c, c ∈ cols ∧ with_converter (type c) = true
         ∧ pg_type env (postgresql_name (type c)) = None
         ∧ e = SchemaLoadFailedError (unknown_type_msg (type c)).
Proof.
  revert cs. induction cols as [|column cols IH]; intros cs; cbn; [done|].
  destruct (with_converter (type column)) eqn:Hw; cbn.
  - destruct (pg_type env (postgresql_name (type column))) as [toid|] eqn:Hty.
    + intros He. destruct (IH _ He) as (Hs & c & Hc & ?). split; [done|].
      exists c. split; [by right|done].
    + destruct strict; cbn.
      * intros [= <-]. split; [done|]. exists column. split; [by left|done].
      * destruct (run env (load_column_converters false schema cols cs)) as [ws r] eqn:E.
        cbn. intros ->. destruct (IH cs) as (Hs & _); [by rewrite E|done].
  - intros He. destruct (IH _ He) as (Hs & c & Hc & ?). split; [done|].
    exists c. split; [by right|done].
Qed.

Lemma load_converters_run strict schemas Q cs cs' :
  (∀ s c, s ∈ schemas → c ∈ dict_values (all_columns (schema_type s)) → Q (type c)) →
  converters_ok env Q cs →
  (run env (load_converters strict schemas cs)).2 = Ok cs' →
  converters_ok env Q cs'
  ∧ (∀ k, is_Some (dict_get cs k) → is_Some (dict_get cs' k))
  ∧ (∀ s c, s ∈ schemas → c ∈ dict_values (all_columns (schema_type s)) →
       with_converter (type c) = true →
       (strict = true → is_Some (pg_type env (postgresql_name (type c))))
       ∧ (is_Some (pg_type env (postgresql_name (type c))) →
          is_Some (dict_get cs' (postgresql_name (type c))))).
Proof.
  revert cs. induction schemas as [|schema schemas IH]; intros cs HQ Hok; cbn.
  - intros [= <-]. split; [done|split; [done|]]. intros s c Hs. by apply elem_of_nil in Hs.
  - unfold mbind, Task_bind. rewrite run_bind.
    destruct (run env (load_column_converters strict schema _ cs)) as [ws [cs1|e]] eqn:E;
      cbn [fst snd]; [|done].
    intros Hrun.
    destruct (load_column_converters_run strict schema
                (dict_values (all_columns (schema_type schema))) Q cs cs1)
      as (Hok1 & Hmono1 & Hcov1); [|done|by rewrite E|].
    { intros c Hc. apply (HQ schema c); [by left|done]. }
    destruct (IH cs1) as (Hok' & Hmono' & Hcov'); [|done|done|].
    { intros s c Hs. apply HQ. by right. }
    split; [done|split; [by auto|]].
    intros s c Hs Hc Hw. apply elem_of_cons in Hs as [->|Hs]; [|by eapply Hcov'].
    destruct (Hcov1 c Hc Hw) as [Hstrict Hsome]. split; [done|]. by auto.
Qed.

Lemma load_converters_Err strict schemas cs e :
  (run env (load_converters strict schemas cs)).2 = Err e →
  strict = true
  ∧ ∃ s c, s ∈ schemas ∧ c ∈ dict_values (all_columns (schema_type s))
           ∧ with_converter (type c) = true
           ∧ pg_type env (postgresql_name (type c)) = None
           ∧ e = SchemaLoadFailedError (unknown_type_msg (type c)).
Proof.
  revert cs. induction schemas as [|schema schemas IH]; intros cs; cbn; [done|].
  unfold mbind, Task_bind. rewrite run_bind.
  destruct (run env (load_column_converters strict schema _ cs)) as [ws [cs1|e1]] eqn:E;
    cbn [fst snd].
  - intros He. destruct (IH _ He) as (Hs & s & c & Hin & ?). split; [done|].
    exists s, c. split; [by right|done].
  - intros [= <-].
    destruct (load_column_converters_Err strict schema
                (dict_values (all_columns (schema_type schema))) cs e1)
      as (Hs & c & Hc & ?); [by rewrite E|].
    split; [done|]. exists schema, c. split; [by left|done].
Qed.

(** Every schema that a batch collected is the schema of a declared table,
    with the server's object ID for it. *)
Lemma loaded_schema_origin sched schema_types strict schema :
  schema ∈ omap id (results (run_group env sched schema_types (backfill_table_data strict))) →
  schema_type schema ∈ schema_types
  ∧ (run env (backfill_table_data strict (schema_type schema))).2 = Ok (Some schema)
  ∧ pg_class env (table_name (schema_type schema)) = Some (oid schema).
Proof.
  intros Hin. apply list_elem_of_omap in Hin as (o & Ho & Hid). cbn in Hid. subst o.
  destruct (run_group_results env sched schema_types (backfill_table_data strict) _ Ho)
    as (table & Hin & Hrun).
  destruct (backfill_table_data_Ok env table strict schema Hrun) as (Hoid & <- & _).
  done.
Qed.

End LoadFacts.

Lemma create_table_schemas_Ok env sched schema_types strict m converters :
  (create_table_schemas env sched schema_types strict).2 = Ok (m, converters) →
  let g := run_group env sched schema_types (backfill_table_data strict) in
  raised g = []
  ∧ m = schema_mapping (omap id (results g))
  ∧ ∃ cs, (run env (load_converters strict (omap id (results g)) [])).2 = Ok cs
          ∧ converters = dict_values cs.
Proof.
  intros Hok g. rewrite create_table_schemas_result in Hok. fold g in Hok.
  destruct (is_nil (raised g)) eqn:Hn; [|done]. apply is_nil_true in Hn.
  destruct (run env (load_converters strict (omap id (results g)) [])).2 as [cs|] eqn:E;
    [|done].
  injection Hok as <- <-. split; [done|split; [done|]]. by exists cs.
Qed.

(** X12.  Under either policy, every entry of a loaded schema map is the
    schema of a declared table, stored under that table's class, and holds
    the object ID that the server has for the table's name. *)
Theorem schema_map_holds_declared_tables
    (env : World) (sched : list tick) (schema_types : list TableClass) (strict : bool)
    (m : gmap nat TableSchema) (converters : list Converter)
    (k : nat) (schema : TableSchema) :
  (create_table_schemas env sched schema_types strict).2 = Ok (m, converters) →
  m !! k = Some schema →
  schema_type schema ∈ schema_types
  ∧ cls (schema_type schema) = k
  ∧ pg_class env (table_name (schema_type schema)) = Some (oid schema).
Proof.
  intros Hok Hk.
  destruct (create_table_schemas_Ok _ _ _ _ _ _ Hok) as (_ & -> & _).
  apply schema_mapping_lookup in Hk as [Hin Hcls].
  destruct (loaded_schema_origin env sched schema_types strict schema Hin) as (? & _ & ?).
  done.
Qed.

Lemma schema_map_holds_declared_tables_witness :
  schema_type example_schema ∈ [ExampleTable; OtherTable]
  ∧ cls (schema_type example_schema) = 1%nat
  ∧ pg_class server_with_table (table_name (schema_type example_schema))
    = Some (oid example_schema).
Proof.
  apply (schema_map_holds_declared_tables server_with_table [Resume 1]
           [ExampleTable; OtherTable] false (<[1%nat := example_schema]> ∅) []).
  - vm_compute. reflexivity.
  - reflexivity.
Defined.

(** X13.  The converters of a successful load: no two of them are for the
    same type name; each is for the type of a declared column that can
    produce a converter, with the object ID the server has for that type
    name; and every such column of a table in the schema map whose type the
    server has is covered by a converter of that name and object ID (under
    strict policy the server has all of them). *)
Theorem converters_one_per_type_name
    (env : World) (sched : list tick) (schema_types : list TableClass) (strict : bool)
    (m : gmap nat TableSchema) (converters : list Converter) :
  (create_table_schemas env sched schema_types strict).2 = Ok (m, converters) →
  NoDup ((fun cv => postgresql_name (conv_type cv)) <$> converters)
  ∧ (∀ cv, cv ∈ converters →
       with_converter (conv_type cv) = true
       ∧ pg_type env (postgresql_name (conv_type cv)) = Some (conv_oid cv)
       ∧ declared_type schema_types (conv_type cv))
  ∧ (∀ k schema c,
       m !! k = Some schema →
       c ∈ dict_values (all_columns (schema_type schema)) →
       with_converter (type c) = true →
       (strict = true → is_Some (pg_type env (postgresql_name (type c))))
       ∧ ∀ toid, pg_type env (postgresql_name (type c)) = Some toid →
           ∃ cv, cv ∈ converters
                 ∧ postgresql_name (conv_type cv) = postgresql_name (type c)
                 ∧ conv_oid cv = toid).
Proof.
  intros Hok.
  destruct (create_table_schemas_Ok _ _ _ _ _ _ Hok) as (_ & -> & cs & Hcs & ->).
  set (schemas := omap id (results
         (run_group env sched schema_types (backfill_table_data strict)))) in *.
  destruct (load_converters_run env strict schemas (declared_type schema_types) [] cs)
    as ([Hnd Hall] & _ & Hcov); [| |done|].
  { intros s c Hs Hc. exists (schema_type s), c. split; [|done].
    by destruct (loaded_schema_origin env sched schema_types strict s Hs). }
  { split; [apply NoDup_nil_2|done]. }
  assert (∀ kv, kv ∈ cs → postgresql_name (conv_type kv.2) = kv.1
                          ∧ with_converter (conv_type kv.2) = true
                          ∧ pg_type env kv.1 = Some (conv_oid kv.2)
                          ∧ declared_type schema_types (conv_type kv.2)) as Hentries.
  { intros [k cv] Hin. apply Hall. by apply dict_elem_of_get. }
  split; [|split].
  - unfold dict_values. rewrite <- list_fmap_compose.
    replace ((fun cv => postgresql_name (conv_type cv)) ∘ snd <$> cs) with cs.*1; [done|].
    apply Forall_fmap_ext, Forall_forall. intros kv Hkv. cbn.
    by destruct (Hentries kv Hkv) as [-> _].
  - intros cv Hcv. apply list_elem_of_fmap in Hcv as ([k cv'] & -> & Hin).
    destruct (Hentries _ Hin) as (Hname & Hw & Hty & HQ). cbn in *.
    by rewrite Hname.
  - intros k schema c Hk Hc Hw.
    apply schema_mapping_lookup in Hk as [Hin _].
    destruct (Hcov schema c Hin Hc Hw) as [Hstrict Hsome]. split; [done|].
    intros toid Hty. destruct Hsome as [cv Hcv]; [by eexists|].
    destruct (Hall _ _ Hcv) as (Hname & _ & Hoid & _).
    exists cv. split; [|split; [done|congruence]].
    apply dict_get_elem_of in Hcv. by apply (list_elem_of_fmap_2 snd) in Hcv.
Qed.

Lemma converters_one_per_type_name_witness :
  NoDup ((fun cv => postgresql_name (conv_type cv))
           <$> [{| conv_oid := 16388; conv_type := example_enum |}])
  ∧ pg_type (enum_server true) "example_enum" = Some 16388.
Proof.
  destruct (converters_one_per_type_name (enum_server true) [] [EnumTable] true
              (<[4%nat := {| schema_type := EnumTable; oid := 16390;
                             column_mapping :=
                               <[enum_field := 2]>
                                 (<[{| type := Int4Type 14; owner := Some 4%nat;
                                       name := "id" |} := 1]> ∅) |}]> ∅)
              [{| conv_oid := 16388; conv_type := example_enum |}])
    as (Hnd & Hall & _).
  - vm_compute. reflexivity.
  - split; [exact Hnd|]. apply (Hall {| conv_oid := 16388; conv_type := example_enum |}).
    by left.
Defined.

(** X14.  [create_table_schemas] fails under strict policy only, and then
    either with an exception group, each member of which is the "Unknown
    table", "Missing column in schema" or "Unmapped columns" error of a
    declared table, or with a plain "Can't find OID for type" error for the
    converter-producing type of a declared column that the server lacks.
    Under lenient policy it always returns a schema map. *)
Theorem create_table_schemas_failures
    (env : World) (sched : list tick) (schema_types : list TableClass) (strict : bool) :
  (∀ e, (create_table_schemas env sched schema_types strict).2 = Err e →
     strict = true
     ∧ ((∃ excs, e = ExceptionGroup excs ∧ excs ≠ []
           ∧ ∀ x, x ∈ excs →
               ∃ table msg, table ∈ schema_types ∧ x = SchemaLoadFailedError msg
                 ∧ (msg = unknown_table_msg table
                    ∨ (∃ n, msg = missing_column_msg table n ∧ ¬ declared table n)
                    ∨ (∃ unmapped, msg = unmapped_columns_msg unmapped
                         ∧ ∀ c, c ∈ unmapped → c ∈ dict_values (all_columns table))))
        ∨ (∃ ty, e = SchemaLoadFailedError (unknown_type_msg ty)
             ∧ with_converter ty = true
             ∧ pg_type env (postgresql_name ty) = None
             ∧ declared_type schema_types ty)))
  ∧ (strict = false →
     ∃ m converters,
       (create_table_schemas env sched schema_types strict).2 = Ok (m, converters)).
Proof.
  set (g := run_group env sched schema_types (backfill_table_data strict)).
  assert (∀ e, (create_table_schemas env sched schema_types strict).2 = Err e →
     strict = true
     ∧ ((∃ excs, e = ExceptionGroup excs ∧ excs ≠ []
           ∧ ∀ x, x ∈ excs →
               ∃ table msg, table ∈ schema_types ∧ x = SchemaLoadFailedError msg
                 ∧ (msg = unknown_table_msg table
                    ∨ (∃ n, msg = missing_column_msg table n ∧ ¬ declared table n)
                    ∨ (∃ unmapped, msg = unmapped_columns_msg unmapped
                         ∧ ∀ c, c ∈ unmapped → c ∈ dict_values (all_columns table))))
        ∨ (∃ ty, e = SchemaLoadFailedError (unknown_type_msg ty)
             ∧ with_converter ty = true
             ∧ pg_type env (postgresql_name ty) = None
             ∧ declared_type schema_types ty))) as Herr.
  { intros e He. rewrite create_table_schemas_result in He. fold g in He.
    destruct (is_nil (raised g)) eqn:Hn.
    - destruct (run env (load_converters strict (omap id (results g)) [])).2
        as [cs|e'] eqn:E; [done|]. injection He as <-.
      destruct (load_converters_Err env strict _ _ _ E)
        as (Hs & s & c & Hin & Hc & Hw & Hty & ->).
      split; [done|]. right. exists (type c). repeat split; try done.
      exists (schema_type s), c. split; [|done].
      by destruct (loaded_schema_origin env sched schema_types strict s Hin).
    - injection He as <-. apply is_nil_false in Hn.
      assert (∀ x, x ∈ raised g →
                ∃ table, table ∈ schema_types
                  ∧ (run env (backfill_table_data strict table)).2 = Err x) as Hfrom.
      { intros x Hx.
        destruct (run_group_raised env sched schema_types (backfill_table_data strict) x Hx)
          as (i & table & Hi & _ & Hrun).
        exists table. split; [by eapply list_elem_of_lookup_2|done]. }
      split.
      + destruct (raised g) as [|x xs] eqn:Hr; [done|].
        destruct (Hfrom x) as (table & _ & Hrun); [by left|].
        by destruct (backfill_table_data_Err env strict table x Hrun).
      + left. exists (raised g). split; [done|split; [done|]].
        intros x Hx. destruct (Hfrom x Hx) as (table & Hin & Hrun).
        destruct (backfill_table_data_Err env strict table x Hrun)
          as (_ & msg & -> & Hmsg).
        by exists table, msg. }
  split; [exact Herr|]. intros Hlenient.
  destruct (create_table_schemas env sched schema_types strict).2 as [[m cs]|e] eqn:E.
  - by exists m, cs.
  - destruct (Herr e eq_refl) as [Hs _]. congruence.
Qed.

Lemma create_table_schemas_failures_witness :
  (∃ ty, SchemaLoadFailedError "Can't find OID for type example_enum"
         = SchemaLoadFailedError (unknown_type_msg ty)
         ∧ with_converter ty = true
         ∧ pg_type (enum_server false) (postgresql_name ty) = None)
  ∧ ∃ m converters,
      (create_table_schemas (enum_server false) [] [EnumTable] false).2
      = Ok (m, converters).
Proof.
  split.
  - destruct (proj1 (create_table_schemas_failures (enum_server false) [] [EnumTable] true)
                (SchemaLoadFailedError "Can't find OID for type example_enum"))
      as [_ [(excs & Hgroup & _)|(ty & He & Hw & Hty & _)]].
    + vm_compute. reflexivity.
    + discriminate.
    + by exists ty.
  - apply (proj2 (create_table_schemas_failures (enum_server false) [] [EnumTable] false)).
    reflexivity.
Defined.

(** X15.  After a strict load has succeeded, every declared column of every
    declared table resolves, on any row fetched through the pool, to the
    schema stored for its table and to the [attnum] of a catalog row that
    names the column; so a lookup by such a column raises no [KeyError]
    other than [NullValue] and [ColumnNotInRow].  (Declared classes are
    told apart by their identity, and a declared column is bound to its
    class.) *)
Theorem strict_pool_resolves_declared_columns
    (env : World) (sched : list tick) (tables : list TableClass) (pool : IsopodPool)
    (table : TableClass) (c : Column) (row : DataRow) :
  spawn_isopods_from_pool env sched tables true = Ok pool →
  (∀ t1 t2, t1 ∈ tables → t2 ∈ tables → cls t1 = cls t2 → t1 = t2) →
  table ∈ tables →
  c ∈ dict_values (all_columns table) →
  owner c = Some (cls table) →
  let self := {| _engine := pool; _row := row |} in
  (∃ ti ord n,
     resolves self c ti ord
     ∧ schema_type ti = table
     ∧ pg_class env (table_name table) = Some (oid ti)
     ∧ (n, ord) ∈ pg_attribute env (oid ti)
     ∧ dict_get (all_columns table) n = Some c)
  ∧ ∀ a, __getitem__ self (KCol c) = Err (KeyError a) →
         KeyError a = NullValue c ∨ KeyError a = ColumnNotInRow c.
Proof.
  intros Hspawn Hident Hin Hc Howner self.
  unfold spawn_isopods_from_pool in Hspawn.
  destruct (create_table_schemas env sched tables true).2 as [[m cs]|e] eqn:Hok; [|done].
  cbn in Hspawn. injection Hspawn as <-.
  destruct (create_table_schemas_Ok _ _ _ _ _ _ Hok) as (Hnil & -> & _).
  destruct (strict_batch_complete env sched tables table Hnil Hin) as (s0 & Hs0 & Ht0).
  destruct (schema_mapping_covers _ _ Hs0) as [ti Hti]. rewrite Ht0 in Hti.
  pose proof Hti as Hlook. apply schema_mapping_lookup in Hlook as [Hti_in Hcls].
  destruct (loaded_schema_origin env sched tables true ti Hti_in) as (Hti_t & Hrun & Hoid).
  assert (schema_type ti = table) as Htable by (by apply Hident).
  rewrite Htable in Hrun, Hoid.
  destruct (backfill_strict_Ok env table _ Hrun) as (s & [= <-] & _ & _ & Hun).
  destruct (unmapped_columns_empty table ti c Hun Hc) as [ord Hord].
  destruct (backfill_table_data_Ok env table true ti Hrun) as (_ & _ & Hcols).
  destruct (backfill_columns_mapping env table true _ _ _ Hcols) as (Hsound & _ & _).
  destruct (Hsound c ord Hord) as [Hold|(n & Hn & Hget)]; [done|].
  assert (resolves self c ti ord) as Hres.
  { exists (cls table). subst self. cbn. done. }
  split; [by exists ti, ord, n|].
  intros a Ha. rewrite (getitem_resolved self c ti ord Hres) in Ha.
  destruct (list_find (Matches ti ord) (columns (_row self))) as [[j d]|];
    [|right; congruence].
  unfold found in Ha. destruct (data (_row self) !! j) as [v|]; [|done].
  destruct (is_none v); [left; congruence|done].
Qed.

Lemma strict_pool_resolves_declared_columns_witness :
  (∃ ti ord n,
     resolves row_id_only col_field ti ord
     ∧ schema_type ti = ExampleTable
     ∧ pg_class server_with_table (table_name ExampleTable) = Some (oid ti)
     ∧ (n, ord) ∈ pg_attribute server_with_table (oid ti)
     ∧ dict_get (all_columns ExampleTable) n = Some col_field)
  ∧ ∀ a, __getitem__ row_id_only (KCol col_field) = Err (KeyError a) →
         KeyError a = NullValue col_field ∨ KeyError a = ColumnNotInRow col_field.
Proof.
  apply (strict_pool_resolves_declared_columns server_with_table [] [ExampleTable]
           example_pool ExampleTable col_field (_row row_id_only)).
  - vm_compute. reflexivity.
  - intros t1 t2 H1 H2 _. apply list_elem_of_singleton in H1, H2. congruence.
  - by left.
  - cbn. rewrite !elem_of_cons. auto.
  - reflexivity.
Defined.

(** * Properties of [map_as_completed] *)

Section MapFacts.
Context {I R : Type} (env : World) (fn : I → Task R).

Lemma omap_done_result (inputs : list I) (cs : list (child R)) :
  Forall2 (fun x c => ∃ r, c = Done r ∧ (run env (fn x)).2 = Ok r) inputs cs →
  Forall2 (fun x r => (run env (fn x)).2 = Ok r) inputs (omap done_result cs).
Proof.
  induction 1 as [|x c inputs cs (r & -> & Hr) _ IH]; cbn; [constructor|].
  by constructor.
Qed.

Lemma run_group_all_done sched (inputs : list I) :
  raised (run_group env sched inputs fn) = [] →
  Forall2 (fun x c => ∃ r, c = Done r ∧ (run env (fn x)).2 = Ok r)
          inputs (children (run_group env sched inputs fn)).
Proof.
  intros Hnil.
  destruct (run_group_inv env sched inputs fn) as [Hch _ _].
  apply Forall2_length in Hch. rewrite length_fmap in Hch.
  apply Forall2_same_length_lookup. split; [done|].
  intros i x c Hx Hc.
  destruct (run_group_child env sched inputs fn i x Hx)
    as [(r & Hi & Hr & _)|[(e & _ & _ & He)|(_ & Hne)]].
  - exists r. split; [congruence|done].
  - rewrite Hnil in He. by apply elem_of_nil in He.
  - done.
Qed.

Lemma join_in_turn (todo : list I) (outs : list R) (finished : list (child R))
    (g : task_group R) :
  Forall2 (fun x r => (run env (fn x)).2 = Ok r) todo outs →
  children g = finished ++ ((fun x => Running (fn x)) <$> todo) →
  raised g = [] →
  let g' := foldl (join_child env) g (seq (length finished) (length todo)) in
  results g' = rev outs ++ results g ∧ raised g' = [].
Proof.
  intros Hall. revert finished g.
  induction Hall as [|x r todo outs Hr _ IH]; intros finished g Hch Hnil; [done|].
  cbn [length seq foldl]. cbn zeta.
  assert (children g !! length finished = Some (Running (fn x))) as Hlook.
  { rewrite Hch, lookup_app_r by done. by rewrite Nat.sub_diag. }
  assert (join_child env g (length finished)
          = settle g (length finished) (lift_result (run env (fn x)))) as ->.
  { unfold join_child. by rewrite Hlook, Hnil. }
  unfold settle, lift_result. cbn [fst snd]. rewrite Hr.
  match goal with |- context [foldl _ ?g1 _] => set (g1' := g1) end.
  destruct (IH (finished ++ [Done r]) g1') as [Hres Hrai].
  - subst g1'. cbn [children]. rewrite Hch.
    rewrite insert_app_r_alt by done. rewrite Nat.sub_diag. cbn.
    by rewrite <- app_assoc.
  - done.
  - rewrite length_app in Hres, Hrai. cbn [length] in Hres, Hrai.
    rewrite Nat.add_1_r in Hres, Hrai. split; [|done].
    rewrite Hres. subst g1'. cbn [results rev]. by rewrite <- app_assoc.
Qed.

End MapFacts.

(** X16.  [map_as_completed] returns exactly when [fn] returns for every
    input, whatever the interleaving; what it returns is then a permutation
    of the results of [fn] on the inputs, one for each input. *)
Theorem map_as_completed_collects {I R : Type}
    (env : World) (sched : list tick) (inputs : list I) (fn : I → Task R) :
  ((∃ rs, (map_as_completed env sched inputs fn).2 = Ok rs)
   ↔ ∀ x, x ∈ inputs → ∃ r, (run env (fn x)).2 = Ok r)
  ∧ ∀ rs, (map_as_completed env sched inputs fn).2 = Ok rs →
      ∃ outs, Forall2 (fun x r => (run env (fn x)).2 = Ok r) inputs outs
              ∧ rs ≡ₚ outs.
Proof.
  set (g := run_group env sched inputs fn).
  assert (∀ rs, (map_as_completed env sched inputs fn).2 = Ok rs →
            raised g = [] ∧ rs = results g) as Hok.
  { intros rs. unfold map_as_completed. fold g. cbn [snd].
    destruct (raised g); [|done]. by intros [= <-]. }
  split; [split|].
  - intros [rs Hrs] x Hx. destruct (Hok rs Hrs) as [Hnil _].
    apply list_elem_of_lookup_1 in Hx as [i Hi].
    destruct (Forall2_lookup_l _ _ _ _ _ (run_group_all_done env fn sched inputs Hnil) Hi)
      as (c & _ & r & _ & Hr).
    by exists r.
  - intros Hall. exists (results g). unfold map_as_completed. fold g. cbn [snd].
    pose proof (run_group_succeeds env sched inputs fn Hall) as Hnil.
    fold g in Hnil. by rewrite Hnil.
  - intros rs Hrs. destruct (Hok rs Hrs) as [Hnil ->].
    exists (omap done_result (children g)). split.
    + apply omap_done_result. by apply run_group_all_done.
    + by destruct (run_group_inv env sched inputs fn).
Qed.

(** X17.  When the children run to their end one after the other, in the
    order they were started, and all return, the deque that
    [map_as_completed] returns lists their results in reverse: the result
    of the child that finished last comes first. *)
Theorem map_as_completed_in_turn {I R : Type}
    (env : World) (inputs : list I) (fn : I → Task R) (outs : list R) :
  Forall2 (fun x r => (run env (fn x)).2 = Ok r) inputs outs →
  (map_as_completed env [] inputs fn).2 = Ok (rev outs).
Proof.
  intros Hall. unfold map_as_completed, run_group, join_all. cbn [foldl snd].
  destruct (join_in_turn env fn inputs outs [] (start_all inputs fn) Hall)
    as [Hres Hrai]; [done|done|].
  cbn [length start_all children results] in *. rewrite length_fmap.
  rewrite Hrai, Hres. cbn. by rewrite app_nil_r.
Qed.

Lemma map_as_completed_in_turn_witness :
  (map_as_completed server_with_table [] [ExampleTable; OtherTable]
     (backfill_table_data false)).2
  = Ok [None; Some example_schema].
Proof.
  apply (map_as_completed_in_turn server_with_table [ExampleTable; OtherTable]
           (backfill_table_data false) [Some example_schema; None]).
  repeat constructor.
Defined.

(** Another interleaving, another order. *)
Example map_as_completed_other_order :
  (map_as_completed server_with_table [Resume 1] [ExampleTable; OtherTable]
     (backfill_table_data false)).2
  = Ok [Some example_schema; None].
Proof. vm_compute. reflexivity. Qed.

(** * More properties of the row accessor *)

Lemma getitem_column_cases self c :
  (∃ ti ord, resolves self c ti ord)
  ∨ (∀ v, __getitem__ self (KCol c) ≠ Ok v)
    ∧ __getitem__ self (KCol c) ≠ Err IndexError
    ∧ (owner c ≠ None → ∃ a, __getitem__ self (KCol c) = Err (KeyError a)).
Proof.
  unfold __getitem__, get_owner, dict_getitem.
  destruct (owner c) as [t|] eqn:Ho; cbn; [|by right].
  destruct (_schemas (_engine self) !! t) as [ti|] eqn:Hs; cbn;
    [|right; split; [done|split; [done|eauto]]].
  destruct (column_mapping ti !! c) as [ord|] eqn:Hc; cbn;
    [|right; split; [done|split; [done|eauto]]].
  left. exists ti, ord, t. done.
Qed.

(** X18.  A lookup by descriptor never returns [None]; so when [get] by a
    descriptor returns [None], the strict lookup raised a [KeyError]. *)
Theorem getitem_column_never_None (self : EnhancedRow) (c : Column) :
  __getitem__ self (KCol c) ≠ Ok PyNone
  ∧ (get self (KCol c) = Ok PyNone ↔ ∃ a, __getitem__ self (KCol c) = Err (KeyError a)).
Proof.
  assert (__getitem__ self (KCol c) ≠ Ok PyNone) as Hnone.
  { destruct (getitem_column_cases self c) as [(ti & ord & Hr)|[Hno _]]; [|apply Hno].
    rewrite (getitem_resolved self c ti ord Hr).
    destruct (list_find (Matches ti ord) (columns (_row self))) as [[j d]|]; [|done].
    unfold found. destruct (data (_row self) !! j) as [v|]; [|done].
    destruct v; done. }
  split; [done|]. unfold get.
  destruct (__getitem__ self (KCol c)) as [v|e] eqn:E.
  - split; [intros [= ->]; done|]. by intros [a Ha].
  - destruct e; split; try done; eauto; by intros [a Ha].
Qed.

(** X19.  On a row that holds one value for each column of its description,
    a lookup by descriptor never raises [IndexError], and [get] by a bound
    descriptor raises nothing at all: it returns the value or [None]. *)
Theorem get_column_total_on_full_rows (self : EnhancedRow) (c : Column) :
  length (data (_row self)) = length (columns (_row self)) →
  __getitem__ self (KCol c) ≠ Err IndexError
  ∧ (owner c ≠ None → ∃ v, get self (KCol c) = Ok v).
Proof.
  intros Hlen.
  destruct (getitem_column_cases self c) as [(ti & ord & Hr)|(_ & Hidx & Hkey)].
  - assert (∃ t, owner c = Some t) as [t Ho] by (destruct Hr as (t & ? & _); eauto).
    unfold get. rewrite (getitem_resolved self c ti ord Hr).
    destruct (list_find (Matches ti ord) (columns (_row self))) as [[j d]|] eqn:E.
    + apply list_find_Some in E as (Hj & _ & _).
      destruct (lookup_lt_is_Some_2 (data (_row self)) j) as [v Hv].
      { rewrite Hlen. by eapply lookup_lt_Some. }
      unfold found, NullValue. rewrite Hv.
      destruct (is_none v); split; try done; eauto.
    + unfold ColumnNotInRow. split; [done|]. eauto.
  - split; [done|]. intros Ho. destruct (Hkey Ho) as [a Ha].
    unfold get. rewrite Ha. eauto.
Qed.

Lemma get_column_total_on_full_rows_witness :
  __getitem__ row_null_field (KCol col_field) ≠ Err IndexError
  ∧ ∃ v, get row_null_field (KCol col_field) = Ok v.
Proof.
  destruct (get_column_total_on_full_rows row_null_field col_field eq_refl) as [Hidx Hget].
  split; [exact Hidx|]. apply Hget. discriminate.
Defined.

(** X20.  A lookup by a descriptor that resolves returns what the lookup by
    raw index returns at the first position whose metadata carries the
    descriptor's pair, except that a [None] there becomes [NullValue]. *)
Theorem getitem_column_is_index_lookup
    (self : EnhancedRow) (c : Column) (ti : TableSchema) (ord : Z)
    (idx : nat) (desc : ColumnDescription) :
  resolves self c ti ord →
  columns (_row self) !! idx = Some desc →
  Matches ti ord desc →
  (∀ j d, columns (_row self) !! j = Some d → (j < idx)%nat → ¬ Matches ti ord d) →
  __getitem__ self (KCol c)
  = match __getitem__ self (KInt (Z.of_nat idx)) with
    | Ok PyNone => Err (NullValue c)
    | r => r
    end.
Proof.
  intros Hr Hidx Hm Hfirst. rewrite (getitem_resolved self c ti ord Hr).
  assert (list_find (Matches ti ord) (columns (_row self)) = Some (idx, desc)) as ->.
  { apply list_find_Some. eauto. }
  cbn [__getitem__]. rewrite list_getitem_nat. unfold found.
  destruct (data (_row self) !! idx) as [v|]; [|done]. by destruct v.
Qed.

Lemma getitem_column_is_index_lookup_witness :
  __getitem__ row_field_id (KCol col_id)
  = match __getitem__ row_field_id (KInt 1) with
    | Ok PyNone => Err (NullValue col_id)
    | r => r
    end.
Proof.
  apply (getitem_column_is_index_lookup row_field_id col_id example_schema 1 1%nat
           (desc "id" 16384 1)).
  - apply example_resolves_id.
  - reflexivity.
  - split; reflexivity.
  - intros j d Hj Hlt [_ Hc]. destruct j as [|j]; [|lia].
    cbn in Hj. injection Hj as <-. discriminate.
Defined.

(** ** The added properties on concrete inputs *)


(** X11 on the server that has the table as declared, and on the one that
    lacks [field]. *)
Lemma strict_reconciliation_succeeds_iff_witness :
  (∃ schema, (run server_with_table (backfill_table_data true ExampleTable)).2
             = Ok (Some schema))
  ∧ ¬ (∀ c, c ∈ dict_values (all_columns ExampleTable) →
         ∃ n, n ∈ (pg_attribute server_without_field 16384).*1
              ∧ dict_get (all_columns ExampleTable) n = Some c).
Proof.
  split.
  - apply (proj2 (strict_reconciliation_succeeds_iff server_with_table ExampleTable)).
    exists 16384. split; [reflexivity|]. split.
    + intros n Hn. change (n ∈ ["id"; "field"]) in Hn. rewrite !elem_of_cons in Hn.
      destruct Hn as [->|[->|Hn]]; [by eexists|by eexists|by apply elem_of_nil in Hn].
    + intros c Hc. change (c ∈ [col_id; col_field]) in Hc. rewrite !elem_of_cons in Hc.
      destruct Hc as [->|[->|Hc]]; [| |by apply elem_of_nil in Hc].
      * exists "id". split; [|reflexivity]. change ("id" ∈ ["id"; "field"]). by left.
      * exists "field". split; [|reflexivity].
        change ("field" ∈ ["id"; "field"]). right. by left.
  - intros Hall.
    destruct (proj2 (strict_reconciliation_succeeds_iff server_without_field ExampleTable))
      as [schema Hrun].
    + exists 16384. split; [reflexivity|]. split; [|exact Hall].
      intros n Hn. change (n ∈ ["id"]) in Hn. apply list_elem_of_singleton in Hn as ->.
      by eexists.
    + vm_compute in Hrun. discriminate.
Defined.

(** X16 on the lenient load of two tables, the second of which the server
    lacks. *)
Lemma map_as_completed_collects_witness :
  ∃ outs,
    Forall2 (fun x r => (run server_with_table (backfill_table_data false x)).2 = Ok r)
            [ExampleTable; OtherTable] outs
    ∧ [Some example_schema; None] ≡ₚ outs.
Proof.
  apply (proj2 (map_as_completed_collects server_with_table [Resume 1]
                  [ExampleTable; OtherTable] (backfill_table_data false))).
  vm_compute. reflexivity.
Defined.
